(** * TcpClient: a shallow embedding of [src/tcp_client.cpp]

    The client owns at most one socket descriptor and talks to the operating
    system through [getaddrinfo], [socket], [connect], [send], [recv] and
    [close].  The embedding models the POSIX build (the [#else] branches of
    the source): [SocketHandle] is [int], the sentinel is [-1],
    [initialize_platform] does nothing, [int] is 32 bits wide and
    [std::size_t] is 64 bits wide.

    The operating system is a parameter: a [Platform] answers every call as a
    function of the calls made so far, and every call is appended to a
    chronological log together with its answer.  Methods are written in a
    small state-and-exception monad over the object's two fields and that
    log; a thrown exception keeps the state reached so far, as in C++. *)

From Stdlib Require Import ZArith String Ascii List Lia Bool.
From Stdlib Require Import DecimalString.
From stdpp Require Import base option list strings gmap gmultiset.
Import ListNotations.

Local Open Scope string_scope.
Local Open Scope list_scope.
Local Open Scope Z_scope.

(** ** Machine integers *)

Definition INT_MAX : Z := 2147483647.                (* numeric_limits<int>::max() *)
Definition SIZE_MOD : Z := 18446744073709551616.     (* 2^64 *)

(** Conversion of an integer to [int] (two's complement wrap-around). *)
Definition to_int (z : Z) : Z := (z + 2147483648) mod 4294967296 - 2147483648.

(** Conversion to, and arithmetic in, [std::size_t]. *)
Definition to_size (z : Z) : Z := z mod SIZE_MOD.

(** ** Data *)

Definition SocketHandle := Z.

Record TcpClient := mkTcpClient {
  socket_ : SocketHandle;
  connected_ : bool
}.

(** One node of the [addrinfo] list that [getaddrinfo] returns; the
    [ai_next] link is the tail of the Rocq list. *)
Record addrinfo := mkAddrinfo {
  ai_family : Z;
  ai_socktype : Z;
  ai_protocol : Z;
  ai_addr : list Byte.byte;
  ai_addrlen : Z
}.

(** Values of the header constants on Linux. *)
Definition AF_UNSPEC : Z := 0.
Definition SOCK_STREAM : Z := 1.
Definition IPPROTO_TCP : Z := 6.

(** The exceptions the source throws, with their [what()] text. *)
Inductive exn :=
| invalid_argument (what : string)
| logic_error (what : string)
| runtime_error (what : string).

(** How a call ends.  [OutOfFuel] is the model's own: the iteration budget
    given to the write loop of [send] ran out. *)
Inductive result (A : Type) :=
| Ok (a : A)
| Throw (e : exn)
| OutOfFuel.
Arguments Ok {A} a.
Arguments Throw {A} e.
Arguments OutOfFuel {A}.

(** ** The operating system *)

(** Every call made to the platform, with its arguments and its answer. *)
Inductive event :=
| EvGetaddrinfo (node service : string) (family socktype protocol : Z)
                (rc : Z) (results : list addrinfo)
| EvFreeaddrinfo (results : list addrinfo)
| EvSocket (family socktype protocol : Z) (ret : Z)
| EvConnect (fd : Z) (addr : list Byte.byte) (addrlen : Z) (ret : Z)
| EvSend (fd : Z) (buf : list Byte.byte) (len : Z) (ret : Z)
| EvRecv (fd : Z) (len : Z) (ret : Z) (written : list Byte.byte)
| EvClose (fd : Z).

Record Platform := mkPlatform {
  sys_getaddrinfo : list event -> string -> string -> Z -> Z -> Z -> Z * list addrinfo;
  sys_socket : list event -> Z -> Z -> Z -> Z;
  sys_connect : list event -> Z -> list Byte.byte -> Z -> Z;
  sys_send : list event -> Z -> list Byte.byte -> Z -> Z;
  sys_recv : list event -> Z -> Z -> Z * list Byte.byte;
  sys_errno : list event -> Z;
  strerror : Z -> string;
  gai_strerror : Z -> string
}.

(** ** The monad of method bodies *)

Record state := mkState {
  self : TcpClient;
  trace : list event
}.

Definition M (A : Type) : Type := state -> result A * state.

Definition ret {A} (a : A) : M A := fun s => (Ok a, s).

Definition throw {A} (e : exn) : M A := fun s => (Throw e, s).

Definition out_of_fuel {A} : M A := fun s => (OutOfFuel, s).

Definition bind {A B} (m : M A) (k : A -> M B) : M B :=
  fun s =>
    match m s with
    | (Ok a, s') => k a s'
    | (Throw e, s') => (Throw e, s')
    | (OutOfFuel, s') => (OutOfFuel, s')
    end.

Declare Scope tcp_scope.
Delimit Scope tcp_scope with tcp.
Notation "x <- m ;; k" := (bind m (fun x => k))
  (at level 100, m at next level, right associativity) : tcp_scope.
Notation "m ;; k" := (bind m (fun _ => k))
  (at level 100, right associativity) : tcp_scope.
Local Open Scope tcp_scope.

Definition get_socket : M SocketHandle := fun s => (Ok (socket_ (self s)), s).
Definition get_connected : M bool := fun s => (Ok (connected_ (self s)), s).
Definition set_socket (h : SocketHandle) : M unit :=
  fun s => (Ok tt, mkState (mkTcpClient h (connected_ (self s))) (trace s)).
Definition set_connected (b : bool) : M unit :=
  fun s => (Ok tt, mkState (mkTcpClient (socket_ (self s)) b) (trace s)).

(** A platform call: ask the platform, given the log so far, and log the
    call with its answer. *)
Definition syscall {A} (answer : list event -> A) (ev : A -> event) : M A :=
  fun s =>
    let a := answer (trace s) in
    (Ok a, mkState (self s) (trace s ++ [ev a])).

(** std::string::empty *)
Definition empty (s : string) : bool :=
  match s with
  | EmptyString => true
  | String _ _ => false
  end.

(** std::to_string on an unsigned value *)
Definition to_string (n : Z) : string :=
  NilZero.string_of_uint (N.to_uint (Z.to_N n)).

(** std::string::resize on the bytes of a string: truncate, or pad with
    zero bytes. *)
Definition resize (n : nat) (buf : list Byte.byte) : list Byte.byte :=
  take n buf ++ replicate (n - length buf)%nat Byte.x00.

Section WithPlatform.

Variable os : Platform.

(** *** The anonymous namespace *)

Definition last_socket_error : M Z :=
  fun s => (Ok (sys_errno os (trace s)), s).

Definition format_network_error (code : Z) : string := strerror os code.

(** *** Private members *)

Definition invalid_socket : SocketHandle := -1.

Definition initialize_platform : M unit := ret tt.

Definition close_socket (handle : SocketHandle) : M unit :=
  if handle =? invalid_socket then ret tt
  else
    _ <- syscall (fun _ => tt) (fun _ => EvClose handle) ;;
    ret tt.

Definition reset_socket : M unit :=
  set_socket invalid_socket ;;
  set_connected false.

Definition ensure_connected : M unit :=
  connected <- get_connected ;;
  sock <- get_socket ;;
  if negb connected || (sock =? invalid_socket)
  then throw (logic_error "socket is not connected")
  else ret tt.

(** *** Public members *)

Definition close : M unit :=
  sock <- get_socket ;;
  (if negb (sock =? invalid_socket) then close_socket sock else ret tt) ;;
  reset_socket.

(** [is_connected() const noexcept] reads [connected_] and touches nothing
    else, so it is a function of the object. *)
Definition is_connected (c : TcpClient) : bool := connected_ c.

(** The [for] loop of [connect] over the resolved list; [handle] is the
    local variable of that name, and the value returned is its value when
    the loop is left. *)
Fixpoint connect_loop (results : list addrinfo) (handle : SocketHandle)
  : M SocketHandle :=
  match results with
  | [] => ret handle
  | ptr :: ai_next =>
    handle <- syscall
      (fun log => sys_socket os log (ai_family ptr) (ai_socktype ptr) (ai_protocol ptr))
      (EvSocket (ai_family ptr) (ai_socktype ptr) (ai_protocol ptr)) ;;
    if handle =? invalid_socket then connect_loop ai_next handle
    else
      connect_result <- syscall
        (fun log => sys_connect os log handle (ai_addr ptr) (ai_addrlen ptr))
        (EvConnect handle (ai_addr ptr) (ai_addrlen ptr)) ;;
      if connect_result =? 0 then ret handle
      else
        close_socket handle ;;
        connect_loop ai_next invalid_socket
  end.

Definition connect (host : string) (port : Z) : M unit :=
  if empty host then throw (invalid_argument "host must not be empty")
  else
    close ;;
    initialize_platform ;;
    let service := to_string port in
    r <- syscall
      (fun log => sys_getaddrinfo os log host service AF_UNSPEC SOCK_STREAM IPPROTO_TCP)
      (fun r => EvGetaddrinfo host service AF_UNSPEC SOCK_STREAM IPPROTO_TCP (fst r) (snd r)) ;;
    let rc := fst r in
    let results := snd r in
    if negb (rc =? 0) || bool_decide (results = []) then
      let detail :=
        if bool_decide (results = []) then "no addresses resolved"
        else gai_strerror os rc in
      throw (runtime_error ("getaddrinfo failed: " +:+ detail))
    else
      handle <- connect_loop results invalid_socket ;;
      syscall (fun _ => tt) (fun _ => EvFreeaddrinfo results) ;;
      if handle =? invalid_socket then
        code <- last_socket_error ;;
        throw (runtime_error ("connect failed: " +:+ format_network_error code))
      else
        set_socket handle ;;
        set_connected true.

(** The [while] loop of [send(const void*, std::size_t)].  [bytes] is the
    memory [data] points to and [total_sent] the local variable; [fuel]
    bounds the number of times the loop test is evaluated. *)
Fixpoint send_loop (fuel : nat) (bytes : list Byte.byte) (length total_sent : Z)
  : M Z :=
  match fuel with
  | O => out_of_fuel
  | S fuel =>
    if total_sent <? length then
      let remaining := to_size (length - total_sent) in
      let chunk := if remaining >? INT_MAX then INT_MAX else to_int remaining in
      sock <- get_socket ;;
      let window := take (Z.to_nat chunk) (drop (Z.to_nat total_sent) bytes) in
      r <- syscall (fun log => sys_send os log sock window chunk)
                   (EvSend sock window chunk) ;;
      let sent := to_int r in
      if sent <=? 0 then
        code <- last_socket_error ;;
        throw (runtime_error ("send failed: " +:+ format_network_error code))
      else send_loop fuel bytes length (to_size (total_sent + sent))
    else ret total_sent
  end.

(** [send(const void* data, std::size_t length)]; a null [data] is [None]. *)
Definition send (fuel : nat) (data : option (list Byte.byte)) (length : Z) : M Z :=
  ensure_connected ;;
  if bool_decide (data = None) && (length >? 0) then
    throw (invalid_argument "data pointer must not be null when length > 0")
  else
    let bytes := default [] data in
    send_loop fuel bytes length 0.

(** [send(const std::string& data)] *)
Definition send_string (fuel : nat) (data : string) : M Z :=
  if empty data then ret 0
  else send fuel (Some (list_byte_of_string data)) (Z.of_nat (String.length data)).

(** [receive(std::size_t max_bytes)].  The buffer starts as [max_bytes] zero
    bytes, the platform overwrites a prefix of it, and the allocation is
    taken to succeed. *)
Definition receive (max_bytes : Z) : M string :=
  ensure_connected ;;
  if max_bytes =? 0 then ret ""
  else
    let buffer := resize (Z.to_nat max_bytes) [] in
    sock <- get_socket ;;
    r <- syscall (fun log => sys_recv os log sock max_bytes)
                 (fun r => EvRecv sock max_bytes (fst r) (snd r)) ;;
    let received := fst r in
    let buffer :=
      take (Z.to_nat max_bytes) (snd r ++ drop (List.length (snd r)) buffer) in
    if received >? 0 then
      ret (string_of_list_byte (resize (Z.to_nat received) buffer))
    else if received =? 0 then
      close ;;
      ret ""
    else
      code <- last_socket_error ;;
      throw (runtime_error ("receive failed: " +:+ format_network_error code)).

(** ** Objects in memory

    Construction, destruction and the two move operations involve the
    identity of objects ([this != &other]), so they are written over a heap
    of objects keyed by address.  A reference to an address that holds no
    object has no behaviour ([None]). *)

Record world := mkWorld {
  heap : gmap nat TcpClient;
  wtrace : list event
}.

(** Run a member function on the object at [this]. *)
Definition call {A} (this : nat) (m : M A) (w : world) : option (result A * world) :=
  match heap w !! this with
  | None => None
  | Some c =>
    let '(r, s) := m (mkState c (wtrace w)) in
    Some (r, mkWorld (<[this := self s]> (heap w)) (trace s))
  end.

(** [TcpClient::TcpClient()] at a free address *)
Definition construct (this : nat) (w : world) : option world :=
  match heap w !! this with
  | Some _ => None
  | None =>
    let w0 := mkWorld (<[this := mkTcpClient invalid_socket false]> (heap w)) (wtrace w) in
    match call this initialize_platform w0 with
    | Some (_, w1) => Some w1
    | None => None
    end
  end.

(** [TcpClient::~TcpClient()]: [close()], then the object is gone. *)
Definition destruct_ (this : nat) (w : world) : option world :=
  match call this close w with
  | Some (_, w1) => Some (mkWorld (delete this (heap w1)) (wtrace w1))
  | None => None
  end.

(** [TcpClient::TcpClient(TcpClient&& other)] at a free address *)
Definition move_construct (this other : nat) (w : world) : option world :=
  match heap w !! this, heap w !! other with
  | None, Some o =>
    let w0 := mkWorld (<[this := mkTcpClient (socket_ o) (connected_ o)]> (heap w))
                      (wtrace w) in
    match call other reset_socket w0 with
    | Some (_, w1) => Some w1
    | None => None
    end
  | _, _ => None
  end.

(** [TcpClient::operator=(TcpClient&& other)] *)
Definition move_assign (this other : nat) (w : world) : option world :=
  if bool_decide (this <> other) then
    match call this close w with
    | Some (_, w1) =>
      match heap w1 !! other with
      | Some o =>
        match call this (set_socket (socket_ o) ;; set_connected (connected_ o)) w1 with
        | Some (_, w2) =>
          match call other reset_socket w2 with
          | Some (_, w3) => Some w3
          | None => None
          end
        | None => None
        end
      | None => None
      end
    | None => None
    end
  else
    match heap w !! this with
    | Some _ => Some w
    | None => None
    end.

(** The operations a program can apply to the objects it holds. *)
Inductive op :=
| OpConstruct (this : nat)
| OpDestruct (this : nat)
| OpMoveConstruct (this other : nat)
| OpMoveAssign (this other : nat)
| OpConnect (this : nat) (host : string) (port : Z)
| OpSend (this : nat) (data : option (list Byte.byte)) (length : Z)
| OpSendString (this : nat) (data : string)
| OpReceive (this : nat) (max_bytes : Z)
| OpClose (this : nat)
| OpIsConnected (this : nat).

Definition forget {A} (r : option (result A * world)) : option world :=
  match r with
  | Some (_, w) => Some w
  | None => None
  end.

Definition exec (fuel : nat) (o : op) (w : world) : option world :=
  match o with
  | OpConstruct this => construct this w
  | OpDestruct this => destruct_ this w
  | OpMoveConstruct this other => move_construct this other w
  | OpMoveAssign this other => move_assign this other w
  | OpConnect this host port => forget (call this (connect host port) w)
  | OpSend this data length => forget (call this (send fuel data length) w)
  | OpSendString this data => forget (call this (send_string fuel data) w)
  | OpReceive this max_bytes => forget (call this (receive max_bytes) w)
  | OpClose this => forget (call this close w)
  | OpIsConnected this =>
    forget (call this (fun s => (Ok (is_connected (self s)), s)) w)
  end.

End WithPlatform.

Arguments invalid_socket : simpl never.

(** ** The state invariant and the programs that reach a state *)

Definition consistent (c : TcpClient) : Prop :=
  (connected_ c = true -> socket_ c <> invalid_socket) /\
  (connected_ c = false -> socket_ c = invalid_socket).

Definition world_consistent (w : world) : Prop :=
  forall a c, heap w !! a = Some c -> consistent c.

(** A member function keeps the invariant when it does so however it ends. *)
Definition keeps_consistent {A} (m : M A) : Prop :=
  forall s, consistent (self s) -> consistent (self (snd (m s))).

(** [steps os w w']: some sequence of operations leads from [w] to [w']. *)
Inductive steps (os : Platform) : world -> world -> Prop :=
| steps_refl w : steps os w w
| steps_step fuel o w1 w2 w3 :
    steps os w1 w2 -> exec os fuel o w2 = Some w3 -> steps os w1 w3.

(** ** The connection attempt policy, in the words of the specification

    Candidates are tried in the order of the list.  Each try opens a socket
    of the candidate's family, type and protocol; a socket that could not be
    opened, or could not be connected, ends the try, and a socket that was
    opened but not connected is closed before the next try.  The first
    socket that connects ends the walk and is adopted; the walk is exhausted
    only when the list is. *)

Inductive outcome :=
| Adopted (fd : Z)
| Exhausted.

Inductive attempt_policy : list addrinfo -> list event -> outcome -> Prop :=
| policy_exhausted :
    attempt_policy [] [] Exhausted
| policy_no_socket cand rest tr out :
    attempt_policy rest tr out ->
    attempt_policy (cand :: rest)
      (EvSocket (ai_family cand) (ai_socktype cand) (ai_protocol cand) invalid_socket
         :: tr) out
| policy_refused cand rest fd rc tr out :
    fd <> invalid_socket -> rc <> 0 ->
    attempt_policy rest tr out ->
    attempt_policy (cand :: rest)
      (EvSocket (ai_family cand) (ai_socktype cand) (ai_protocol cand) fd
         :: EvConnect fd (ai_addr cand) (ai_addrlen cand) rc
         :: EvClose fd :: tr) out
| policy_adopted cand rest fd :
    fd <> invalid_socket ->
    attempt_policy (cand :: rest)
      [EvSocket (ai_family cand) (ai_socktype cand) (ai_protocol cand) fd;
       EvConnect fd (ai_addr cand) (ai_addrlen cand) 0] (Adopted fd).

(** An event records the platform's own answer when the answer written in
    it is what the platform [os] gives to that call after the log [log]. *)
Definition genuine (os : Platform) (log : list event) (e : event) : Prop :=
  match e with
  | EvGetaddrinfo node service family socktype protocol rc results =>
    sys_getaddrinfo os log node service family socktype protocol = (rc, results)
  | EvSocket family socktype protocol ret =>
    sys_socket os log family socktype protocol = ret
  | EvConnect fd addr addrlen ret =>
    sys_connect os log fd addr addrlen = ret
  | EvSend fd buf len ret =>
    sys_send os log fd buf len = ret
  | EvRecv fd len ret written =>
    sys_recv os log fd len = (ret, written)
  | EvFreeaddrinfo _ => True
  | EvClose _ => True
  end.

(** A stretch of log [tr] that follows [log] is answered by the platform
    when each of its events records the platform's answer after all the
    events before it. *)
Fixpoint answered_by (os : Platform) (log tr : list event) : Prop :=
  match tr with
  | [] => True
  | e :: tr => genuine os log e /\ answered_by os (log ++ [e]) tr
  end.

(** ** Concrete platforms, used to run the model *)

Definition candidate6 : addrinfo := mkAddrinfo 10 1 6 [Byte.x0a; Byte.x00] 28.
Definition candidate4 : addrinfo := mkAddrinfo 2 1 6 [Byte.x02; Byte.x00] 16.

(** A host on which [localhost] resolves to an IPv6 and an IPv4 candidate,
    only the IPv4 one accepts, writes take two bytes at a time, and the
    peer has already shut down its side. *)
Definition loopback : Platform := {|
  sys_getaddrinfo := fun _ node _ _ _ _ =>
    if String.eqb node "localhost" then (0, [candidate6; candidate4]) else (-2, []);
  sys_socket := fun _ _ _ _ => 3;
  sys_connect := fun _ _ _ addrlen => if addrlen =? 16 then 0 else -1;
  sys_send := fun _ _ _ len => Z.min len 2;
  sys_recv := fun _ _ _ => (0, []);
  sys_errno := fun _ => 111;
  strerror := fun code => "errno " +:+ to_string code;
  gai_strerror := fun rc => "gai " +:+ to_string (- rc)
|}.

(** The same host with nothing listening, and whose second write fails. *)
Definition refusing : Platform := {|
  sys_getaddrinfo := sys_getaddrinfo loopback;
  sys_socket := fun log family _ _ => if family =? 10 then -1 else 4;
  sys_connect := fun _ _ _ _ => -1;
  sys_send := fun log _ _ len =>
    if bool_decide (log = []) then Z.min len 2 else -1;
  sys_recv := fun _ _ _ => (-1, []);
  sys_errno := fun _ => 111;
  strerror := strerror loopback;
  gai_strerror := gai_strerror loopback
|}.

(** ** Notions used to state the properties *)

(** What [close()] adds to the log on an object [c]. *)
Definition close_events (c : TcpClient) : list event :=
  if socket_ c =? invalid_socket then [] else [EvClose (socket_ c)].

Definition not_connected : exn := logic_error "socket is not connected".

(** The exception of a failed write, thrown when the log is [log]. *)
Definition send_failed (os : Platform) (log : list event) : exn :=
  runtime_error ("send failed: " +:+ format_network_error os (sys_errno os log)).

(** The contract of [send(2)]: the call reports [-1] or a number of bytes
    no larger than the number offered. *)
Definition platform_send_contract (os : Platform) : Prop :=
  forall log fd buf len, 0 < len -> -1 <= sys_send os log fd buf len <= len.

(** The bytes the platform reported as written, over a stretch of log. *)
Fixpoint bytes_accepted (tr : list event) : Z :=
  match tr with
  | [] => 0
  | EvSend _ _ _ r :: tr => (if r >? 0 then r else 0) + bytes_accepted tr
  | _ :: tr => bytes_accepted tr
  end.

Definition is_send_on (fd : Z) (e : event) : bool :=
  match e with
  | EvSend fd' _ _ _ => fd' =? fd
  | _ => false
  end.

(** The exception of a [connect] that found no candidate to connect to,
    thrown when the log is [log]. *)
Definition connect_failed (os : Platform) (log : list event) : exn :=
  runtime_error ("connect failed: " +:+ format_network_error os (sys_errno os log)).

(** The exception of a failed resolution, from the answer of [getaddrinfo]. *)
Definition resolution_failed (os : Platform) (r : Z * list addrinfo) : exn :=
  runtime_error
    ("getaddrinfo failed: " +:+
     (if bool_decide (snd r = []) then "no addresses resolved"
      else gai_strerror os (fst r))).

(** The value of the local [handle] after the candidate loop. *)
Definition handle_of (out : outcome) : SocketHandle :=
  match out with
  | Adopted fd => fd
  | Exhausted => invalid_socket
  end.

(** The [socket] calls of a stretch of log, as (family, type, protocol). *)
Fixpoint sockets_requested (tr : list event) : list (Z * Z * Z) :=
  match tr with
  | [] => []
  | EvSocket family socktype protocol _ :: tr =>
    (family, socktype, protocol) :: sockets_requested tr
  | _ :: tr => sockets_requested tr
  end.

Definition socket_args (cand : addrinfo) : Z * Z * Z :=
  (ai_family cand, ai_socktype cand, ai_protocol cand).

(** The descriptors held after a stretch of log, given those held before,
    counted with multiplicity: a successful [socket] adds its descriptor
    and a [close] takes one away. *)
Fixpoint open_after (held : gmultiset Z) (tr : list event) : gmultiset Z :=
  match tr with
  | [] => held
  | EvSocket _ _ _ fd :: tr =>
    open_after (if fd =? invalid_socket then held else {[+ fd +]} ⊎ held) tr
  | EvClose fd :: tr => open_after (held ∖ {[+ fd +]}) tr
  | _ :: tr => open_after held tr
  end.

(** The descriptors one object owns, and those all objects of a heap own. *)
Definition holds (c : TcpClient) : gmultiset Z :=
  if connected_ c then {[+ socket_ c +]} else ∅.

Definition handles (h : gmap nat TcpClient) : gmultiset Z :=
  map_fold (fun _ c acc => holds c ⊎ acc) ∅ h.

(** Exclusive ownership: the descriptors that the log shows as opened and
    not yet closed are exactly those of the connected objects, each owned
    once. *)
Definition accounted (w : world) : Prop :=
  handles (heap w) = open_after ∅ (wtrace w).

(** A member function accounts for its descriptors when, however it ends,
    the log it adds turns what the object held into what it holds. *)
Definition accounts {A} (m : M A) : Prop :=
  forall s, consistent (self s) ->
    exists tr,
      trace (snd (m s)) = trace s ++ tr /\
      forall held,
        open_after (holds (self s) ⊎ held) tr = holds (self (snd (m s))) ⊎ held.

(** A program: operations applied one after the other. *)
Fixpoint run_ops (os : Platform) (fuel : nat) (ops : list op) (w : world)
  : option world :=
  match ops with
  | [] => Some w
  | o :: ops =>
    match exec os fuel o w with
    | Some w' => run_ops os fuel ops w'
    | None => None
    end
  end.

(** Connect, send, hand the connection over to a second object, and read
    from it until the peer is found to have shut down. *)
Definition session : list op :=
  [OpConstruct 1; OpConnect 1 "localhost" 8080; OpSendString 1 "PING";
   OpMoveConstruct 2 1; OpIsConnected 1; OpReceive 2 4096; OpClose 1].

(** A connected peer that answers every read with the four bytes [PONG]
    and takes every write whole. *)
Definition pong : list Byte.byte := [Byte.x50; Byte.x4f; Byte.x4e; Byte.x47].

Definition chatty : Platform := {|
  sys_getaddrinfo := sys_getaddrinfo loopback;
  sys_socket := sys_socket loopback;
  sys_connect := sys_connect loopback;
  sys_send := fun _ _ _ len => len;
  sys_recv := fun _ _ _ => (4, pong);
  sys_errno := sys_errno loopback;
  strerror := strerror loopback;
  gai_strerror := gai_strerror loopback
|}.

(** A peer whose window is full: every write is answered with zero. *)
Definition stalled : Platform := {|
  sys_getaddrinfo := sys_getaddrinfo loopback;
  sys_socket := sys_socket loopback;
  sys_connect := sys_connect loopback;
  sys_send := fun _ _ _ _ => 0;
  sys_recv := sys_recv loopback;
  sys_errno := sys_errno loopback;
  strerror := strerror loopback;
  gai_strerror := gai_strerror loopback
|}.

Definition fresh : TcpClient := mkTcpClient invalid_socket false.
Definition live : TcpClient := mkTcpClient 3 true.

(** The five bytes of a short message. *)
Definition ping : list Byte.byte :=
  [Byte.x50; Byte.x49; Byte.x4e; Byte.x47; Byte.x0a].

(** The bytes the platform took, in the order it took them: of every
    write, the first [ret] bytes of what was offered. *)
Fixpoint accepted_bytes (tr : list event) : list Byte.byte :=
  match tr with
  | [] => []
  | EvSend _ buf _ r :: tr => take (Z.to_nat r) buf ++ accepted_bytes tr
  | _ :: tr => accepted_bytes tr
  end.

(** A write on [fd] that offers between one and [INT_MAX] bytes, no more
    than [length], and passes no more bytes than it offers. *)
Definition bounded_write (fd length : Z) (e : event) : Prop :=
  match e with
  | EvSend fd' buf len _ =>
    fd' = fd /\ 0 < len <= INT_MAX /\ len <= length /\
    (List.length buf <= Z.to_nat len)%nat
  | _ => False
  end.

(** A stretch of log uses descriptors properly, given those held before
    it: every [connect], [send], [recv] and [close] is on a descriptor that
    is held at that moment, where a successful [socket] adds its descriptor
    to those held and a [close] takes it away. *)
Fixpoint well_used (held : gmultiset Z) (tr : list event) : Prop :=
  match tr with
  | [] => True
  | EvSocket _ _ _ fd :: tr =>
    well_used (if fd =? invalid_socket then held else {[+ fd +]} ⊎ held) tr
  | EvConnect fd _ _ _ :: tr => fd ∈ held /\ well_used held tr
  | EvSend fd _ _ _ :: tr => fd ∈ held /\ well_used held tr
  | EvRecv fd _ _ _ :: tr => fd ∈ held /\ well_used held tr
  | EvClose fd :: tr => fd ∈ held /\ well_used (held ∖ {[+ fd +]}) tr
  | _ :: tr => well_used held tr
  end.

(** A member function is disciplined when, however it ends, the log it
    adds uses properly what the object and the others hold. *)
Definition disciplined {A} (m : M A) : Prop :=
  forall s, consistent (self s) ->
    exists tr,
      trace (snd (m s)) = trace s ++ tr /\
      forall held, well_used (holds (self s) ⊎ held) tr.

(** The session above, followed by the destruction of both objects. *)
Definition whole_session : list op := session ++ [OpDestruct 1; OpDestruct 2].

(** The exception of a failed read, thrown when the log is [log]. *)
Definition receive_failed (os : Platform) (log : list event) : exn :=
  runtime_error ("receive failed: " +:+ format_network_error os (sys_errno os log)).

(** * Properties *)

Local Ltac unfold_monad :=
  unfold bind, ret, throw, get_socket, get_connected, set_socket,
    set_connected, syscall, last_socket_error, initialize_platform in *.

Lemma app_nil_state (s : state) : mkState (self s) (trace s ++ []) = s.
Proof. destruct s; simpl. now rewrite app_nil_r. Qed.

(** ** close and its helpers *)

Lemma reset_socket_eq (s : state) :
  reset_socket s = (Ok tt, mkState fresh (trace s)).
Proof. reflexivity. Qed.

Lemma close_socket_eq (h : SocketHandle) (s : state) :
  close_socket h s =
  (Ok tt, mkState (self s)
            (trace s ++ (if h =? invalid_socket then [] else [EvClose h]))).
Proof.
  unfold close_socket. destruct (h =? invalid_socket); unfold_monad; simpl.
  - now rewrite app_nil_state.
  - reflexivity.
Qed.

Lemma close_eq (s : state) :
  close s = (Ok tt, mkState fresh (trace s ++ close_events (self s))).
Proof.
  unfold close, close_events. unfold bind at 1 2. unfold get_socket.
  destruct (socket_ (self s) =? invalid_socket) eqn:E; simpl.
  - unfold ret. rewrite reset_socket_eq. simpl. now rewrite app_nil_r.
  - rewrite close_socket_eq, E. now rewrite reset_socket_eq.
Qed.

Lemma close_events_fresh : close_events fresh = [].
Proof. reflexivity. Qed.

(** C7. [close()] always returns normally and leaves the object in the
    no-socket state ([socket_] the sentinel, [connected_] false), whatever
    it held, so that [is_connected()] is false; it releases the descriptor
    it held, if any, and nothing else; a second [close()] changes neither
    the object nor the log; and so does any [close()] of an object that
    holds no socket. *)
Theorem close_idempotent_and_total (s : state) :
  fst (close s) = Ok tt /\
  self (snd (close s)) = mkTcpClient invalid_socket false /\
  is_connected (self (snd (close s))) = false /\
  trace (snd (close s)) = trace s ++ close_events (self s) /\
  close (snd (close s)) = (Ok tt, snd (close s)) /\
  (forall log,
     close (mkState (mkTcpClient invalid_socket false) log)
       = (Ok tt, mkState (mkTcpClient invalid_socket false) log)).
Proof.
  rewrite close_eq; simpl.
  split; [reflexivity|]. split; [reflexivity|]. split; [reflexivity|].
  split; [reflexivity|]. split.
  - rewrite close_eq; simpl. rewrite close_events_fresh. now rewrite app_nil_r.
  - intros log. rewrite close_eq; simpl. now rewrite app_nil_r.
Qed.

(** ** The connectivity guard *)

Lemma ensure_connected_throws (s : state) :
  connected_ (self s) = false ->
  ensure_connected s = (Throw not_connected, s).
Proof.
  intros H. unfold ensure_connected. unfold_monad. rewrite H. reflexivity.
Qed.

Lemma ensure_connected_passes (s : state) :
  connected_ (self s) = true -> socket_ (self s) <> invalid_socket ->
  ensure_connected s = (Ok tt, s).
Proof.
  intros H Hs. unfold ensure_connected. unfold_monad. rewrite H.
  apply Z.eqb_neq in Hs. rewrite Hs. reflexivity.
Qed.

Lemma send_not_connected (os : Platform) fuel data length (s : state) :
  connected_ (self s) = false ->
  send os fuel data length s = (Throw not_connected, s).
Proof.
  intros H. unfold send. unfold bind at 1.
  now rewrite ensure_connected_throws.
Qed.

Lemma receive_not_connected (os : Platform) max_bytes (s : state) :
  connected_ (self s) = false ->
  receive os max_bytes s = (Throw not_connected, s).
Proof.
  intros H. unfold receive. unfold bind at 1.
  now rewrite ensure_connected_throws.
Qed.

Lemma send_string_empty (os : Platform) fuel (s : state) :
  send_string os fuel "" s = (Ok 0, s).
Proof. reflexivity. Qed.

(** C2, as the code has it.  On an object that is not connected,
    [send(data, length)] for every pointer and length, [send(string)] for
    every non-empty string and [receive] for every [max_bytes] throw
    [std::logic_error], leave the object as it was and make no platform
    call.  [send(string)] with the empty string is answered before the
    connectivity guard: it returns 0, also without a platform call. *)
Theorem not_connected_calls (os : Platform) (fuel : nat) (s : state) :
  is_connected (self s) = false ->
  (forall data length,
      send os fuel data length s = (Throw not_connected, s)) /\
  (forall data, empty data = false ->
      send_string os fuel data s = (Throw not_connected, s)) /\
  (forall max_bytes,
      receive os max_bytes s = (Throw not_connected, s)) /\
  send_string os fuel "" s = (Ok 0, s).
Proof.
  intros H. unfold is_connected in H. repeat apply conj.
  - intros. now apply send_not_connected.
  - intros data Hd. unfold send_string. rewrite Hd.
    now apply send_not_connected.
  - intros. now apply receive_not_connected.
  - apply send_string_empty.
Qed.

Lemma not_connected_calls_witness :
  is_connected (self (mkState fresh [])) = false /\
  send loopback 8 (Some [Byte.x50; Byte.x49]) 2 (mkState fresh [])
    = (Throw not_connected, mkState fresh []) /\
  send_string loopback 8 "PING" (mkState fresh [])
    = (Throw not_connected, mkState fresh []) /\
  receive loopback 4096 (mkState fresh [])
    = (Throw not_connected, mkState fresh []).
Proof.
  assert (H : is_connected (self (mkState fresh [])) = false) by reflexivity.
  destruct (not_connected_calls loopback 8 (mkState fresh []) H)
    as (Hsend & Hstr & Hrecv & _).
  split; [exact H|]. split; [apply Hsend|].
  split; [apply Hstr; reflexivity|apply Hrecv].
Defined.

(** C2 as stated fails: on a freshly constructed object, which is not
    connected, [send(std::string())] returns 0 and throws nothing. *)
Lemma send_empty_string_when_not_connected :
  is_connected fresh = false /\
  send_string loopback 8 "" (mkState fresh []) = (Ok 0, mkState fresh []).
Proof. split; reflexivity. Qed.

(** ** Zero-length sends *)

Lemma send_zero_connected (os : Platform) fuel data (s : state) :
  connected_ (self s) = true -> socket_ (self s) <> invalid_socket ->
  (0 < fuel)%nat ->
  send os fuel data 0 s = (Ok 0, s).
Proof.
  intros H Hs Hf. unfold send. unfold bind at 1.
  rewrite ensure_connected_passes by assumption.
  rewrite andb_false_r. destruct fuel; [lia|]. reflexivity.
Qed.

(** C3, as the code has it.  [send(string)] with the empty string returns 0
    on every object, connected or not, with no platform call and no change
    of state.  [send(data, 0)] runs the connectivity guard first: on a
    connected object it returns 0 with no platform call and no change of
    state, for a null or non-null [data]; on an object that is not connected
    it throws [std::logic_error]. *)
Theorem zero_length_send (os : Platform) (fuel : nat) (s : state) :
  (0 < fuel)%nat ->
  send_string os fuel "" s = (Ok 0, s) /\
  (is_connected (self s) = true -> socket_ (self s) <> invalid_socket ->
     forall data, send os fuel data 0 s = (Ok 0, s)) /\
  (is_connected (self s) = false ->
     forall data, send os fuel data 0 s = (Throw not_connected, s)).
Proof.
  intros Hf. split; [apply send_string_empty|]. split.
  - intros H Hs data. now apply send_zero_connected.
  - intros H data. now apply send_not_connected.
Qed.

Lemma zero_length_send_witness :
  (0 < 1)%nat /\
  send_string loopback 1 "" (mkState live []) = (Ok 0, mkState live []) /\
  send loopback 1 None 0 (mkState live []) = (Ok 0, mkState live []) /\
  send loopback 1 (Some []) 0 (mkState fresh [])
    = (Throw not_connected, mkState fresh []).
Proof.
  assert (Hf : (0 < 1)%nat) by lia.
  destruct (zero_length_send loopback 1 (mkState live []) Hf) as (H1 & H2 & _).
  destruct (zero_length_send loopback 1 (mkState fresh []) Hf) as (_ & _ & H3).
  split; [exact Hf|]. split; [exact H1|]. split.
  - apply H2; [reflexivity|discriminate].
  - apply H3. reflexivity.
Defined.

(** C3 as stated fails: on a freshly constructed object, [send(data, 0)]
    throws instead of returning 0. *)
Lemma send_zero_length_when_not_connected :
  is_connected fresh = false /\
  send loopback 8 (Some []) 0 (mkState fresh [])
    = (Throw (logic_error "socket is not connected"), mkState fresh []) /\
  send loopback 8 None 0 (mkState fresh [])
    = (Throw (logic_error "socket is not connected"), mkState fresh []).
Proof. repeat split. Qed.

(** ** connect: the argument check *)

(** C4. For an empty [host] and any [port], [connect] throws
    [std::invalid_argument]; the log is unchanged, so neither
    [getaddrinfo] nor any other platform call was made, and the object is
    unchanged too. *)
Theorem connect_empty_host (os : Platform) host port (s : state) :
  empty host = true ->
  connect os host port s = (Throw (invalid_argument "host must not be empty"), s).
Proof. intros H. unfold connect. rewrite H. reflexivity. Qed.

Lemma connect_empty_host_witness :
  empty "" = true /\
  connect loopback "" 80 (mkState live [])
    = (Throw (invalid_argument "host must not be empty"), mkState live []).
Proof.
  split; [reflexivity|]. apply connect_empty_host. reflexivity.
Defined.

(** ** receive *)

(** C6. On a connected object, a [receive] whose [recv] call reports zero
    bytes returns the empty string normally (it does not throw), closes the
    descriptor and leaves the object in the no-socket state, so that
    [is_connected()] is false afterwards.  The log gains exactly the [recv]
    call and the [close] of the descriptor. *)
Theorem receive_peer_shutdown (os : Platform) (max_bytes : Z) (s : state) :
  is_connected (self s) = true ->
  socket_ (self s) <> invalid_socket ->
  max_bytes <> 0 ->
  fst (sys_recv os (trace s) (socket_ (self s)) max_bytes) = 0 ->
  receive os max_bytes s =
    (Ok "",
     mkState (mkTcpClient invalid_socket false)
       (trace s ++
        [EvRecv (socket_ (self s)) max_bytes 0
           (snd (sys_recv os (trace s) (socket_ (self s)) max_bytes));
         EvClose (socket_ (self s))])) /\
  is_connected (self (snd (receive os max_bytes s))) = false.
Proof.
  intros Hc Hs Hm Hr. unfold is_connected in Hc.
  assert (E : receive os max_bytes s =
    (Ok "",
     mkState (mkTcpClient invalid_socket false)
       (trace s ++
        [EvRecv (socket_ (self s)) max_bytes 0
           (snd (sys_recv os (trace s) (socket_ (self s)) max_bytes));
         EvClose (socket_ (self s))]))).
  { unfold receive. unfold bind at 1.
    rewrite ensure_connected_passes by assumption.
    apply Z.eqb_neq in Hm. rewrite Hm.
    unfold bind at 1. unfold get_socket. unfold bind at 1. unfold syscall.
    cbn [fst snd self trace]. rewrite Hr. cbn [Z.gtb Z.compare Z.eqb].
    unfold bind at 1. rewrite close_eq. cbn [fst snd self trace ret].
    unfold close_events; cbn [self socket_].
    apply Z.eqb_neq in Hs. rewrite Hs.
    now rewrite <- app_assoc. }
  rewrite E. split; reflexivity.
Qed.

Lemma receive_peer_shutdown_witness :
  receive loopback 4096 (mkState live [EvSocket 2 1 6 3; EvConnect 3 [] 16 0])
  = (Ok "", mkState fresh [EvSocket 2 1 6 3; EvConnect 3 [] 16 0;
                           EvRecv 3 4096 0 []; EvClose 3]).
Proof.
  apply (receive_peer_shutdown loopback 4096
    (mkState live [EvSocket 2 1 6 3; EvConnect 3 [] 16 0]));
    [reflexivity | discriminate | discriminate | reflexivity].
Defined.

(** ** send *)

Lemma to_int_id (z : Z) : -2147483648 <= z <= INT_MAX -> to_int z = z.
Proof.
  unfold to_int, INT_MAX. intros H.
  rewrite Z.mod_small by lia. lia.
Qed.

Lemma to_size_id (z : Z) : 0 <= z < SIZE_MOD -> to_size z = z.
Proof. unfold to_size. intros H. now rewrite Z.mod_small. Qed.

Lemma chunk_bounds (remaining : Z) :
  0 < remaining ->
  0 < (if remaining >? INT_MAX then INT_MAX else to_int remaining) <= remaining /\
  (if remaining >? INT_MAX then INT_MAX else to_int remaining) <= INT_MAX.
Proof.
  intros H. destruct (remaining >? INT_MAX) eqn:E.
  - apply Z.gtb_lt in E. unfold INT_MAX in *. lia.
  - assert (remaining <= INT_MAX) by (rewrite Z.gtb_ltb in E; apply Z.ltb_ge in E; lia).
    rewrite to_int_id by (unfold INT_MAX in *; lia). lia.
Qed.

Lemma bytes_accepted_app (tr1 tr2 : list event) :
  bytes_accepted (tr1 ++ tr2) = bytes_accepted tr1 + bytes_accepted tr2.
Proof.
  induction tr1 as [|e tr1 IH]; simpl; [reflexivity|].
  destruct e; rewrite IH; lia.
Qed.

(** One turn of the write loop, with the monad unfolded. *)
Lemma send_loop_turn (os : Platform) fuel bytes length total_sent (s : state) :
  (total_sent <? length) = true ->
  send_loop os (S fuel) bytes length total_sent s =
    let remaining := to_size (length - total_sent) in
    let chunk := if remaining >? INT_MAX then INT_MAX else to_int remaining in
    let window := take (Z.to_nat chunk) (drop (Z.to_nat total_sent) bytes) in
    let r := sys_send os (trace s) (socket_ (self s)) window chunk in
    let s1 := mkState (self s)
                (trace s ++ [EvSend (socket_ (self s)) window chunk r]) in
    if to_int r <=? 0 then (Throw (send_failed os (trace s1)), s1)
    else send_loop os fuel bytes length (to_size (total_sent + to_int r)) s1.
Proof.
  intros Hlt. cbn [send_loop]. rewrite Hlt. cbv zeta.
  unfold bind, get_socket, syscall, last_socket_error, throw, send_failed.
  cbn [self trace].
  destruct (to_int _ <=? 0); reflexivity.
Qed.

Lemma send_loop_done (os : Platform) fuel bytes length total_sent (s : state) :
  (total_sent <? length) = false ->
  send_loop os (S fuel) bytes length total_sent s = (Ok total_sent, s).
Proof. intros Hlt. cbn [send_loop]. rewrite Hlt. reflexivity. Qed.

Section SendLoop.

Variable os : Platform.
Hypothesis send_contract : platform_send_contract os.
Variable bytes : list Byte.byte.
Variable length : Z.
Hypothesis length_range : 0 <= length < SIZE_MOD.

Lemma send_loop_all_or_nothing (fuel : nat) :
  forall (total_sent : Z) (s : state),
    0 <= total_sent <= length ->
    (Z.to_nat (length - total_sent) < fuel)%nat ->
    exists tr,
      Forall (fun e => is_send_on (socket_ (self s)) e = true) tr /\
      (send_loop os fuel bytes length total_sent s
         = (Ok length, mkState (self s) (trace s ++ tr))
       /\ bytes_accepted tr = length - total_sent
       \/
       send_loop os fuel bytes length total_sent s
         = (Throw (send_failed os (trace s ++ tr)),
            mkState (self s) (trace s ++ tr))).
Proof.
  induction fuel as [|fuel IH]; intros total_sent s Ht Hf; [lia|].
  destruct (total_sent <? length) eqn:Hlt.
  - rewrite send_loop_turn by exact Hlt. apply Z.ltb_lt in Hlt.
    rewrite (to_size_id (length - total_sent)) by lia.
    destruct (chunk_bounds (length - total_sent)) as [Hc Hmax]; [lia|].
    cbv zeta.
    set (chunk := if length - total_sent >? INT_MAX then INT_MAX
                  else to_int (length - total_sent)) in *.
    set (window := take (Z.to_nat chunk) (drop (Z.to_nat total_sent) bytes)).
    set (r := sys_send os (trace s) (socket_ (self s)) window chunk).
    assert (Hr : -1 <= r <= chunk) by (apply send_contract; lia).
    rewrite (to_int_id r) by (unfold INT_MAX in *; lia).
    destruct (r <=? 0) eqn:Hr0.
    + exists [EvSend (socket_ (self s)) window chunk r]. split.
      * constructor; [|constructor]. simpl. apply Z.eqb_refl.
      * right. reflexivity.
    + apply Z.leb_gt in Hr0.
      rewrite (to_size_id (total_sent + r)) by lia.
      destruct (IH (total_sent + r)
                  (mkState (self s)
                     (trace s ++ [EvSend (socket_ (self s)) window chunk r])))
        as (tr & Hall & Hres); [lia|lia|].
      cbn [self trace] in Hall, Hres.
      exists (EvSend (socket_ (self s)) window chunk r :: tr). split.
      * constructor; [simpl; apply Z.eqb_refl|exact Hall].
      * replace (trace s ++ EvSend (socket_ (self s)) window chunk r :: tr)
          with ((trace s ++ [EvSend (socket_ (self s)) window chunk r]) ++ tr)
          by (now rewrite <- app_assoc).
        destruct Hres as [[Hok Hsum]|Hthrow].
        -- left. split; [exact Hok|].
           cbn [bytes_accepted]. destruct (r >? 0) eqn:Hg; [lia|].
           rewrite Z.gtb_ltb in Hg. apply Z.ltb_ge in Hg. lia.
        -- right. exact Hthrow.
  - rewrite send_loop_done by exact Hlt.
    apply Z.ltb_ge in Hlt. assert (total_sent = length) by lia. subst.
    exists []. split; [constructor|]. left.
    rewrite app_nil_state. split; [reflexivity|simpl; lia].
Qed.

End SendLoop.

Lemma send_connected (os : Platform) fuel data length (s : state) :
  connected_ (self s) = true -> socket_ (self s) <> invalid_socket ->
  send os fuel data length s =
    if bool_decide (data = None) && (length >? 0)
    then (Throw (invalid_argument "data pointer must not be null when length > 0"), s)
    else send_loop os fuel (default [] data) length 0 s.
Proof.
  intros Hc Hs. unfold send. unfold bind at 1.
  rewrite ensure_connected_passes by assumption.
  destruct (bool_decide (data = None) && (length >? 0)); reflexivity.
Qed.

(** C1. On a connected object, with a platform whose [send] keeps to its
    contract, and given fuel for one loop test more than [length],
    [send(data, length)] ends in one of three ways: it returns exactly
    [length], and then the platform accepted [length] bytes in all; or it
    throws the [std::runtime_error] of a failed write, whose text is made
    of the error code alone and says nothing of the bytes accepted before;
    or, for a null [data] and a positive [length], it throws
    [std::invalid_argument] before any write.  In particular it never
    returns a number other than [length].  The object is unchanged and the
    log gains only writes on its descriptor. *)
Theorem send_all_or_throw (os : Platform) (fuel : nat)
    (data : option (list Byte.byte)) (length : Z) (s : state) :
  platform_send_contract os ->
  consistent (self s) ->
  is_connected (self s) = true ->
  0 <= length < SIZE_MOD ->
  (Z.to_nat length < fuel)%nat ->
  (forall n, fst (send os fuel data length s) = Ok n -> n = length) /\
  exists tr,
    Forall (fun e => is_send_on (socket_ (self s)) e = true) tr /\
    (send os fuel data length s = (Ok length, mkState (self s) (trace s ++ tr))
       /\ bytes_accepted tr = length
     \/
     send os fuel data length s
       = (Throw (send_failed os (trace s ++ tr)),
          mkState (self s) (trace s ++ tr))
     \/
     data = None /\ 0 < length /\ tr = [] /\
     send os fuel data length s
       = (Throw (invalid_argument "data pointer must not be null when length > 0"),
          s)).
Proof.
  intros Hos [Hinv _] Hc Hlen Hfuel. unfold is_connected in Hc.
  specialize (Hinv Hc).
  assert (Hmain : exists tr,
    Forall (fun e => is_send_on (socket_ (self s)) e = true) tr /\
    (send os fuel data length s = (Ok length, mkState (self s) (trace s ++ tr))
       /\ bytes_accepted tr = length
     \/
     send os fuel data length s
       = (Throw (send_failed os (trace s ++ tr)),
          mkState (self s) (trace s ++ tr))
     \/
     data = None /\ 0 < length /\ tr = [] /\
     send os fuel data length s
       = (Throw (invalid_argument "data pointer must not be null when length > 0"),
          s))).
  { rewrite send_connected by assumption.
    destruct (bool_decide (data = None) && (length >? 0)) eqn:Hnull.
    - apply andb_true_iff in Hnull. destruct Hnull as [Hd Hl].
      apply bool_decide_eq_true in Hd. apply Z.gtb_lt in Hl.
      exists []. split; [constructor|]. right. right. now repeat split.
    - destruct (send_loop_all_or_nothing os Hos (default [] data) length Hlen
                  fuel 0 s) as (tr & Hall & Hres); [lia | | ].
      { now rewrite Z.sub_0_r. }
      exists tr. split; [exact Hall|].
      destruct Hres as [[Hok Hsum]|Hthrow].
      + left. split; [exact Hok|]. now rewrite Z.sub_0_r in Hsum.
      + right. left. exact Hthrow. }
  split; [|exact Hmain].
  intros n Hn. destruct Hmain as (tr & _ & [[E _]|[E|(_ & _ & _ & E)]]);
    rewrite E in Hn; simpl in Hn; congruence.
Qed.

Lemma loopback_send_contract : platform_send_contract loopback.
Proof. intros log fd buf len Hlen. simpl. lia. Defined.

Lemma refusing_send_contract : platform_send_contract refusing.
Proof.
  intros log fd buf len Hlen. simpl. destruct (bool_decide (log = [])); lia.
Defined.

Lemma live_consistent : consistent live.
Proof. split; intros H; [discriminate | discriminate H]. Defined.

Lemma send_all_or_throw_witness :
  (forall n, fst (send loopback 6 (Some ping) 5 (mkState live [])) = Ok n -> n = 5) /\
  exists tr,
    Forall (fun e => is_send_on 3 e = true) tr /\
    (send loopback 6 (Some ping) 5 (mkState live [])
       = (Ok 5, mkState live ([] ++ tr))
       /\ bytes_accepted tr = 5
     \/
     send loopback 6 (Some ping) 5 (mkState live [])
       = (Throw (send_failed loopback ([] ++ tr)), mkState live ([] ++ tr))
     \/
     Some ping = None /\ 0 < 5 /\ tr = [] /\
     send loopback 6 (Some ping) 5 (mkState live [])
       = (Throw (invalid_argument "data pointer must not be null when length > 0"),
          mkState live [])).
Proof.
  apply (send_all_or_throw loopback 6 (Some ping) 5 (mkState live [])).
  - exact loopback_send_contract.
  - exact live_consistent.
  - reflexivity.
  - unfold SIZE_MOD. lia.
  - simpl. lia.
Defined.

(** The two runs the theorem speaks of, evaluated: five bytes go out in
    three writes; and when the second write fails, the two bytes that the
    first one moved appear in the log but not in what the caller gets. *)
Example send_ping_loopback :
  send loopback 6 (Some ping) 5 (mkState live []) =
  (Ok 5, mkState live [EvSend 3 ping 5 2;
                       EvSend 3 [Byte.x4e; Byte.x47; Byte.x0a] 3 2;
                       EvSend 3 [Byte.x0a] 1 1]).
Proof. vm_compute. reflexivity. Qed.

Example send_ping_refusing :
  send refusing 6 (Some ping) 5 (mkState live []) =
  (Throw (runtime_error "send failed: errno 111"),
   mkState live [EvSend 3 ping 5 2;
                 EvSend 3 [Byte.x4e; Byte.x47; Byte.x0a] 3 (-1)]).
Proof. vm_compute. reflexivity. Qed.

(** ** connect: the walk over the candidates *)

Lemma attempt_policy_adopted results tr fd :
  attempt_policy results tr (Adopted fd) -> fd <> invalid_socket.
Proof.
  intros H. remember (Adopted fd) as out eqn:E.
  induction H; try discriminate; auto. now inversion E; subst.
Qed.

Lemma connect_loop_policy (os : Platform) (results : list addrinfo) :
  forall s : state,
    exists tr out,
      attempt_policy results tr out /\
      connect_loop os results invalid_socket s
        = (Ok (handle_of out), mkState (self s) (trace s ++ tr)).
Proof.
  induction results as [|cand rest IH]; intros s.
  - exists [], Exhausted. split; [constructor|].
    cbn [connect_loop]. unfold ret. now rewrite app_nil_state.
  - cbn [connect_loop]. unfold bind at 1. unfold syscall at 1.
    set (fd := sys_socket os (trace s) (ai_family cand) (ai_socktype cand)
                 (ai_protocol cand)).
    destruct (fd =? invalid_socket) eqn:Hfd.
    + apply Z.eqb_eq in Hfd. rewrite Hfd.
      destruct (IH (mkState (self s)
                      (trace s ++ [EvSocket (ai_family cand) (ai_socktype cand)
                                     (ai_protocol cand) invalid_socket])))
        as (tr & out & Hpol & Hrun).
      eexists (_ :: tr), out. split; [now apply policy_no_socket|].
      rewrite Hrun. cbn [self trace]. now rewrite <- app_assoc.
    + apply Z.eqb_neq in Hfd.
      unfold bind at 1. unfold syscall at 1. cbn [self trace].
      set (log1 := trace s ++ [EvSocket _ _ _ fd]).
      set (rc := sys_connect os log1 fd (ai_addr cand) (ai_addrlen cand)).
      destruct (rc =? 0) eqn:Hrc.
      * apply Z.eqb_eq in Hrc. rewrite Hrc.
        eexists [_; _], (Adopted fd). split; [now apply policy_adopted|].
        unfold ret, log1. cbn [handle_of]. now rewrite <- app_assoc.
      * apply Z.eqb_neq in Hrc.
        unfold bind at 1. rewrite close_socket_eq. cbn [self trace].
        apply Z.eqb_neq in Hfd. rewrite Hfd. apply Z.eqb_neq in Hfd.
        destruct (IH (mkState (self s)
                        ((log1 ++ [EvConnect fd (ai_addr cand) (ai_addrlen cand) rc])
                           ++ [EvClose fd])))
          as (tr & out & Hpol & Hrun).
        eexists (_ :: _ :: _ :: tr), out.
        split; [now apply (policy_refused cand rest fd rc)|].
        rewrite Hrun. cbn [self trace]. unfold log1.
        now rewrite <- !app_assoc.
Qed.

(** What [connect] does for a non-empty host, with the monad unfolded. *)
Lemma connect_unfold (os : Platform) host port (s : state) :
  empty host = false ->
  connect os host port s =
    let log1 := trace s ++ close_events (self s) in
    let r := sys_getaddrinfo os log1 host (to_string port)
               AF_UNSPEC SOCK_STREAM IPPROTO_TCP in
    let log2 := log1 ++ [EvGetaddrinfo host (to_string port)
                           AF_UNSPEC SOCK_STREAM IPPROTO_TCP (fst r) (snd r)] in
    if negb (fst r =? 0) || bool_decide (snd r = []) then
      (Throw (resolution_failed os r), mkState fresh log2)
    else
      match connect_loop os (snd r) invalid_socket (mkState fresh log2) with
      | (Ok handle, s3) =>
        let log4 := trace s3 ++ [EvFreeaddrinfo (snd r)] in
        if handle =? invalid_socket
        then (Throw (connect_failed os log4), mkState (self s3) log4)
        else (Ok tt, mkState (mkTcpClient handle true) log4)
      | (Throw e, s3) => (Throw e, s3)
      | (OutOfFuel, s3) => (OutOfFuel, s3)
      end.
Proof.
  intros Hh. unfold connect. rewrite Hh.
  unfold bind at 1. rewrite close_eq.
  unfold bind at 1. unfold initialize_platform, ret.
  unfold bind at 1. unfold syscall at 1. cbn [self trace]. cbv zeta.
  destruct (negb _ || bool_decide _); [reflexivity|].
  unfold bind at 1.
  destruct (connect_loop os _ invalid_socket _) as [[handle| |] s3];
    [|reflexivity|reflexivity].
  unfold bind at 1. unfold syscall at 1.
  destruct (handle =? invalid_socket); reflexivity.
Qed.

Lemma connect_nonempty (os : Platform) host port (s : state) :
  empty host = false ->
  let log1 := trace s ++ close_events (self s) in
  let r := sys_getaddrinfo os log1 host (to_string port)
             AF_UNSPEC SOCK_STREAM IPPROTO_TCP in
  let log2 := log1 ++ [EvGetaddrinfo host (to_string port)
                         AF_UNSPEC SOCK_STREAM IPPROTO_TCP (fst r) (snd r)] in
  if negb (fst r =? 0) || bool_decide (snd r = []) then
    connect os host port s = (Throw (resolution_failed os r), mkState fresh log2)
  else
    exists tr out,
      attempt_policy (snd r) tr out /\
      connect os host port s =
        match out with
        | Adopted fd =>
          (Ok tt, mkState (mkTcpClient fd true)
                    (log2 ++ tr ++ [EvFreeaddrinfo (snd r)]))
        | Exhausted =>
          (Throw (connect_failed os (log2 ++ tr ++ [EvFreeaddrinfo (snd r)])),
           mkState fresh (log2 ++ tr ++ [EvFreeaddrinfo (snd r)]))
        end.
Proof.
  intros Hh log1 r log2. rewrite connect_unfold by exact Hh.
  cbv zeta. fold log1. fold r. fold log2.
  destruct (negb (fst r =? 0) || bool_decide (snd r = [])) eqn:Hres.
  - reflexivity.
  - destruct (connect_loop_policy os (snd r) (mkState fresh log2))
      as (tr & out & Hpol & Hrun).
    exists tr, out. split; [exact Hpol|].
    rewrite Hrun. cbn [self trace]. rewrite <- app_assoc.
    destruct out as [fd|]; cbn [handle_of].
    + apply attempt_policy_adopted in Hpol. apply Z.eqb_neq in Hpol.
      rewrite Hpol. reflexivity.
    + rewrite Z.eqb_refl. reflexivity.
Qed.

Lemma attempt_policy_requests results tr out :
  attempt_policy results tr out ->
  sockets_requested tr `prefix_of` map socket_args results /\
  (out = Exhausted -> sockets_requested tr = map socket_args results).
Proof.
  induction 1 as [|cand rest tr out H [IHp IHe]
                  |cand rest fd rc tr out Hfd Hrc H [IHp IHe]
                  |cand rest fd Hfd]; cbn [sockets_requested map].
  - split; [reflexivity|reflexivity].
  - split; [now apply prefix_cons|]. intros E. now rewrite IHe.
  - split; [now apply prefix_cons|]. intros E. now rewrite IHe.
  - split; [|discriminate]. apply prefix_cons, prefix_nil.
Qed.

Lemma attempt_policy_open results tr out :
  attempt_policy results tr out ->
  forall held,
    open_after held tr =
    match out with
    | Adopted fd => {[+ fd +]} ⊎ held
    | Exhausted => held
    end.
Proof.
  induction 1 as [|cand rest tr out H IH
                  |cand rest fd rc tr out Hfd Hrc H IH
                  |cand rest fd Hfd]; intros held; cbn [open_after].
  - reflexivity.
  - rewrite Z.eqb_refl. apply IH.
  - apply Z.eqb_neq in Hfd. rewrite Hfd. rewrite IH.
    destruct out; multiset_solver.
  - apply Z.eqb_neq in Hfd. rewrite Hfd. reflexivity.
Qed.

(** The walk again, now with the answers: what it logs is what the
    platform answered, call after call. *)
Lemma connect_loop_answered (os : Platform) (results : list addrinfo) :
  forall s : state,
    exists tr out,
      attempt_policy results tr out /\
      answered_by os (trace s) tr /\
      connect_loop os results invalid_socket s
        = (Ok (handle_of out), mkState (self s) (trace s ++ tr)).
Proof.
  induction results as [|cand rest IH]; intros s.
  - exists [], Exhausted. split; [constructor|]. split; [exact I|].
    cbn [connect_loop]. unfold ret. now rewrite app_nil_state.
  - cbn [connect_loop]. unfold bind at 1. unfold syscall at 1.
    set (fd := sys_socket os (trace s) (ai_family cand) (ai_socktype cand)
                 (ai_protocol cand)).
    set (e1 := EvSocket (ai_family cand) (ai_socktype cand) (ai_protocol cand) fd).
    assert (G1 : genuine os (trace s) e1) by reflexivity.
    destruct (fd =? invalid_socket) eqn:Hfd.
    + apply Z.eqb_eq in Hfd.
      destruct (IH (mkState (self s) (trace s ++ [e1])))
        as (tr & out & Hpol & Hans & Hrun).
      cbn [self trace] in Hans, Hrun.
      exists (e1 :: tr), out. split; [|split].
      * unfold e1. rewrite Hfd. now apply policy_no_socket.
      * split; [exact G1|exact Hans].
      * rewrite Hfd at 1. rewrite Hrun. now rewrite <- app_assoc.
    + apply Z.eqb_neq in Hfd.
      unfold bind at 1. unfold syscall at 1. cbn [self trace]. fold e1.
      set (rc := sys_connect os (trace s ++ [e1]) fd (ai_addr cand) (ai_addrlen cand)).
      set (e2 := EvConnect fd (ai_addr cand) (ai_addrlen cand) rc).
      assert (G2 : genuine os (trace s ++ [e1]) e2) by reflexivity.
      destruct (rc =? 0) eqn:Hrc.
      * apply Z.eqb_eq in Hrc.
        exists [e1; e2], (Adopted fd). split; [|split].
        -- unfold e1, e2. rewrite Hrc. now apply policy_adopted.
        -- split; [exact G1|]. split; [exact G2|exact I].
        -- unfold ret. cbn [handle_of]. now rewrite <- app_assoc.
      * apply Z.eqb_neq in Hrc.
        unfold bind at 1. rewrite close_socket_eq. cbn [self trace].
        apply Z.eqb_neq in Hfd. rewrite Hfd. apply Z.eqb_neq in Hfd.
        destruct (IH (mkState (self s) (((trace s ++ [e1]) ++ [e2]) ++ [EvClose fd])))
          as (tr & out & Hpol & Hans & Hrun).
        cbn [self trace] in Hans, Hrun.
        exists (e1 :: e2 :: EvClose fd :: tr), out. split; [|split].
        -- now apply (policy_refused cand rest fd rc).
        -- split; [exact G1|]. split; [exact G2|]. split; [exact I|exact Hans].
        -- rewrite Hrun. now rewrite <- !app_assoc.
Qed.

(** C5. When the host is not empty and resolution answers with a
    non-empty list, [connect] walks the candidates by the attempt policy,
    on the answers the platform really gave: every [socket] and [connect]
    event of the walk records what the platform answered to that call after
    the log before it.  Sockets are requested in the order of the list, each
    with its candidate's family, type and protocol; the walk ends at the
    first socket that connects, which becomes the object's descriptor with
    [connected_] set; a socket opened for a candidate that did not connect
    is closed before the next request (a candidate whose socket could not
    be opened leaves no descriptor to close), so the only descriptor still
    held after the walk is the adopted one; and the [std::runtime_error] of
    a failed connect is thrown exactly when the walk is exhausted, in which
    case a socket was requested for every candidate. *)
Theorem connect_attempt_policy (os : Platform) host port (s : state)
    (results : list addrinfo) :
  empty host = false ->
  sys_getaddrinfo os (trace s ++ close_events (self s)) host (to_string port)
    AF_UNSPEC SOCK_STREAM IPPROTO_TCP = (0, results) ->
  results <> [] ->
  exists tr out,
    attempt_policy results tr out /\
    answered_by os
      ((trace s ++ close_events (self s)) ++
       [EvGetaddrinfo host (to_string port) AF_UNSPEC SOCK_STREAM IPPROTO_TCP
          0 results]) tr /\
    sockets_requested tr `prefix_of` map socket_args results /\
    (out = Exhausted -> sockets_requested tr = map socket_args results) /\
    open_after ∅ tr = match out with Adopted fd => {[+ fd +]} | Exhausted => ∅ end /\
    let log' :=
      (trace s ++ close_events (self s)) ++
      EvGetaddrinfo host (to_string port) AF_UNSPEC SOCK_STREAM IPPROTO_TCP
        0 results :: tr ++ [EvFreeaddrinfo results] in
    connect os host port s =
      match out with
      | Adopted fd => (Ok tt, mkState (mkTcpClient fd true) log')
      | Exhausted => (Throw (connect_failed os log'), mkState fresh log')
      end.
Proof.
  intros Hh Hres Hne.
  rewrite connect_unfold by exact Hh. cbv zeta.
  rewrite Hres. cbn [fst snd].
  rewrite Z.eqb_refl. cbn [negb orb].
  rewrite bool_decide_eq_false_2 by exact Hne.
  set (log2 := (trace s ++ close_events (self s)) ++
               [EvGetaddrinfo host (to_string port) AF_UNSPEC SOCK_STREAM
                  IPPROTO_TCP 0 results]).
  destruct (connect_loop_answered os results (mkState fresh log2))
    as (tr & out & Hpol & Hans & Hrun).
  cbn [self trace] in Hans, Hrun.
  exists tr, out.
  destruct (attempt_policy_requests _ _ _ Hpol) as [Hp He].
  split; [exact Hpol|]. split; [exact Hans|].
  split; [exact Hp|]. split; [exact He|].
  split; [rewrite (attempt_policy_open _ _ _ Hpol); destruct out; multiset_solver|].
  rewrite Hrun. cbn [self trace]. unfold log2. rewrite <- !app_assoc.
  destruct out as [fd|]; cbn [handle_of].
  - apply attempt_policy_adopted in Hpol. apply Z.eqb_neq in Hpol.
    rewrite Hpol. reflexivity.
  - rewrite Z.eqb_refl. reflexivity.
Qed.

Lemma connect_attempt_policy_witness :
  connect loopback "localhost" 8080 (mkState fresh []) =
  (Ok tt,
   mkState (mkTcpClient 3 true)
     [EvGetaddrinfo "localhost" "8080" AF_UNSPEC SOCK_STREAM IPPROTO_TCP 0
        [candidate6; candidate4];
      EvSocket 10 1 6 3; EvConnect 3 [Byte.x0a; Byte.x00] 28 (-1); EvClose 3;
      EvSocket 2 1 6 3; EvConnect 3 [Byte.x02; Byte.x00] 16 0;
      EvFreeaddrinfo [candidate6; candidate4]]).
Proof.
  destruct (connect_attempt_policy loopback "localhost" 8080 (mkState fresh [])
              [candidate6; candidate4])
    as (tr & out & Hpol & Hans & _ & _ & _ & Heq);
    [reflexivity | reflexivity | discriminate |].
  cbv zeta in Heq. rewrite Heq. clear Heq.
  inversion Hpol as [ | c1 r1 t1 o1 P1 | c1 r1 fd1 rc1 t1 o1 Hfd1 Hrc1 P1
                    | c1 r1 fd1 Hfd1 ]; subst; cbn in Hans.
  - destruct Hans as [G _]. discriminate G.
  - destruct Hans as (G1 & G2 & _ & Hans). subst fd1 rc1.
    inversion P1 as [ | c2 r2 t2 o2 P2 | c2 r2 fd2 rc2 t2 o2 Hfd2 Hrc2 P2
                    | c2 r2 fd2 Hfd2 ]; subst; cbn in Hans.
    + destruct Hans as [G _]. discriminate G.
    + destruct Hans as (G1 & G2 & _). subst fd2 rc2. now contradiction Hrc2.
    + destruct Hans as (G1 & _). subst fd2. reflexivity.
  - destruct Hans as (_ & G2 & _). discriminate G2.
Defined.

(** The two walks, evaluated.  On [loopback] the IPv6 candidate is refused,
    its socket is closed, and the IPv4 candidate is adopted; on [refusing]
    no IPv6 socket can be opened, the IPv4 one is refused and closed, and
    the call throws. *)
Example connect_loopback :
  connect loopback "localhost" 8080 (mkState fresh []) =
  (Ok tt,
   mkState (mkTcpClient 3 true)
     [EvGetaddrinfo "localhost" "8080" 0 1 6 0 [candidate6; candidate4];
      EvSocket 10 1 6 3; EvConnect 3 [Byte.x0a; Byte.x00] 28 (-1); EvClose 3;
      EvSocket 2 1 6 3; EvConnect 3 [Byte.x02; Byte.x00] 16 0;
      EvFreeaddrinfo [candidate6; candidate4]]).
Proof. vm_compute. reflexivity. Qed.

Example connect_refusing :
  connect refusing "localhost" 8080 (mkState fresh []) =
  (Throw (runtime_error "connect failed: errno 111"),
   mkState fresh
     [EvGetaddrinfo "localhost" "8080" 0 1 6 0 [candidate6; candidate4];
      EvSocket 10 1 6 (-1);
      EvSocket 2 1 6 4; EvConnect 4 [Byte.x02; Byte.x00] 16 (-1); EvClose 4;
      EvFreeaddrinfo [candidate6; candidate4]]).
Proof. vm_compute. reflexivity. Qed.

(** ** connect: what a failure leaves behind *)

(** C10. On a connected object: a [connect] with an empty host throws
    [std::invalid_argument] and leaves the object and the log exactly as
    they were, so the object is still connected on the same descriptor;
    a [connect] with a non-empty host that throws leaves the object in the
    no-socket state, and the log shows the old descriptor closed first and
    [getaddrinfo] called right after. *)
Theorem connect_failure_state (os : Platform) host port (s : state) :
  consistent (self s) ->
  is_connected (self s) = true ->
  (empty host = true ->
     connect os host port s
       = (Throw (invalid_argument "host must not be empty"), s)) /\
  (empty host = false ->
     forall e s', connect os host port s = (Throw e, s') ->
       self s' = mkTcpClient invalid_socket false /\
       is_connected (self s') = false /\
       exists rc results tail,
         trace s' =
           trace s ++
           EvClose (socket_ (self s))
             :: EvGetaddrinfo host (to_string port)
                  AF_UNSPEC SOCK_STREAM IPPROTO_TCP rc results
             :: tail).
Proof.
  intros [Hinv _] Hc. unfold is_connected in Hc. specialize (Hinv Hc).
  split.
  - intros Hh. unfold connect. now rewrite Hh.
  - intros Hh e s' Hrun.
    pose proof (connect_nonempty os host port s Hh) as H. cbv zeta in H.
    assert (Hclose : close_events (self s) = [EvClose (socket_ (self s))]).
    { unfold close_events. apply Z.eqb_neq in Hinv. now rewrite Hinv. }
    rewrite Hclose in H.
    set (r := sys_getaddrinfo os (trace s ++ [EvClose (socket_ (self s))]) host
                (to_string port) AF_UNSPEC SOCK_STREAM IPPROTO_TCP) in *.
    destruct (negb (fst r =? 0) || bool_decide (snd r = [])).
    + rewrite H in Hrun. inversion Hrun; subst. cbn [self trace].
      split; [reflexivity|]. split; [reflexivity|].
      exists (fst r), (snd r), []. now rewrite <- app_assoc.
    + destruct H as (tr & out & _ & H). rewrite H in Hrun.
      destruct out as [fd|]; inversion Hrun; subst. cbn [self trace].
      split; [reflexivity|]. split; [reflexivity|].
      exists (fst r), (snd r), (tr ++ [EvFreeaddrinfo (snd r)]).
      now rewrite <- !app_assoc.
Qed.

Lemma connect_failure_state_witness :
  connect refusing "" 8080 (mkState live [])
    = (Throw (invalid_argument "host must not be empty"), mkState live []) /\
  exists rc results tail,
    trace (snd (connect refusing "localhost" 8080 (mkState live []))) =
      [] ++ EvClose 3
        :: EvGetaddrinfo "localhost" (to_string 8080)
             AF_UNSPEC SOCK_STREAM IPPROTO_TCP rc results
        :: tail.
Proof.
  destruct (connect_failure_state refusing "" 8080 (mkState live [])
              live_consistent eq_refl) as [Hempty _].
  destruct (connect_failure_state refusing "localhost" 8080 (mkState live [])
              live_consistent eq_refl) as [_ Hlate].
  split; [apply Hempty; reflexivity|].
  destruct (Hlate eq_refl
              (runtime_error "connect failed: errno 111")
              (snd (connect refusing "localhost" 8080 (mkState live []))))
    as (_ & _ & Htrace).
  - vm_compute. reflexivity.
  - exact Htrace.
Defined.

(** The same two calls, evaluated on a connected object. *)
Example reconnect_refusing :
  connect refusing "localhost" 8080 (mkState live []) =
  (Throw (runtime_error "connect failed: errno 111"),
   mkState fresh
     [EvClose 3;
      EvGetaddrinfo "localhost" "8080" 0 1 6 0 [candidate6; candidate4];
      EvSocket 10 1 6 (-1);
      EvSocket 2 1 6 4; EvConnect 4 [Byte.x02; Byte.x00] 16 (-1); EvClose 4;
      EvFreeaddrinfo [candidate6; candidate4]]).
Proof. vm_compute. reflexivity. Qed.

Example reconnect_unresolved :
  connect refusing "no.such.host" 8080 (mkState live []) =
  (Throw (runtime_error "getaddrinfo failed: no addresses resolved"),
   mkState fresh [EvClose 3; EvGetaddrinfo "no.such.host" "8080" 0 1 6 (-2) []]).
Proof. vm_compute. reflexivity. Qed.

(** ** Objects in memory: running members, moving, and the invariant *)

Lemma call_inv {A} (this : nat) (m : M A) (w : world) r w' :
  call this m w = Some (r, w') ->
  exists c,
    heap w !! this = Some c /\
    r = fst (m (mkState c (wtrace w))) /\
    w' = mkWorld (<[this := self (snd (m (mkState c (wtrace w))))]> (heap w))
                 (trace (snd (m (mkState c (wtrace w))))).
Proof.
  unfold call. destruct (heap w !! this) as [c|]; [|discriminate].
  destruct (m (mkState c (wtrace w))) as [r0 s0] eqn:E. intros H.
  inversion H; subst. exists c. rewrite E. cbn [fst snd]. auto.
Qed.

Lemma call_lookup {A} (this : nat) (m : M A) (w : world) (c : TcpClient) :
  heap w !! this = Some c ->
  call this m w =
    Some (fst (m (mkState c (wtrace w))),
          mkWorld (<[this := self (snd (m (mkState c (wtrace w))))]> (heap w))
                  (trace (snd (m (mkState c (wtrace w)))))).
Proof.
  intros H. unfold call. rewrite H.
  now destruct (m (mkState c (wtrace w))).
Qed.

Lemma rebuild (c : TcpClient) : mkTcpClient (socket_ c) (connected_ c) = c.
Proof. now destruct c. Qed.

(** C8. Let [A] be an object, in any state.  Move-constructing a new
    object [B] from [A] gives [B] the descriptor and the flag of [A], so
    [B] is connected exactly when [A] was, and resets [A] to the no-socket
    state, so [A] is not connected; no platform call is made and no other
    object changes.  A [close()] on [A] afterwards returns normally and
    changes nothing: not the log, not [B], not [A].  Move-assigning [A] to
    another existing object [D] first closes the descriptor [D] held, if
    any, and then does the same transfer.  In particular, from a connected
    [A], [B] (or [D]) ends connected on the descriptor of [A] and [A] ends
    not connected. *)
Theorem move_transfers_ownership (w : world) (A : nat) (a : TcpClient) :
  heap w !! A = Some a ->
  (forall B, heap w !! B = None ->
     exists w1,
       move_construct B A w = Some w1 /\
       heap w1 !! B = Some (mkTcpClient (socket_ a) (connected_ a)) /\
       is_connected <$> heap w1 !! B = Some (is_connected a) /\
       heap w1 !! A = Some (mkTcpClient invalid_socket false) /\
       is_connected <$> heap w1 !! A = Some false /\
       (forall C, C <> A -> C <> B -> heap w1 !! C = heap w !! C) /\
       wtrace w1 = wtrace w /\
       call A close w1 = Some (Ok tt, w1)) /\
  (forall D d, heap w !! D = Some d -> D <> A ->
     exists w2,
       move_assign D A w = Some w2 /\
       heap w2 !! D = Some (mkTcpClient (socket_ a) (connected_ a)) /\
       is_connected <$> heap w2 !! D = Some (is_connected a) /\
       heap w2 !! A = Some (mkTcpClient invalid_socket false) /\
       is_connected <$> heap w2 !! A = Some false /\
       (forall C, C <> A -> C <> D -> heap w2 !! C = heap w !! C) /\
       wtrace w2 = wtrace w ++ close_events d).
Proof.
  intros HA. destruct w as [h tr]. cbn [heap wtrace] in *. split.
  - intros B HB. assert (HAB : A <> B) by congruence.
    unfold move_construct. cbn [heap wtrace]. rewrite HB, HA.
    erewrite call_lookup
      by (cbn [heap]; rewrite lookup_insert_ne by congruence; exact HA).
    rewrite reset_socket_eq. cbn [fst snd self trace heap wtrace].
    eexists. split; [reflexivity|]. cbn [heap wtrace].
    assert (HlB : <[A:=fresh]> (<[B:=mkTcpClient (socket_ a) (connected_ a)]> h) !! B
                  = Some (mkTcpClient (socket_ a) (connected_ a)))
      by (now rewrite lookup_insert_ne, lookup_insert_eq by congruence).
    assert (HlA : <[A:=fresh]> (<[B:=mkTcpClient (socket_ a) (connected_ a)]> h) !! A
                  = Some (mkTcpClient invalid_socket false))
      by (now rewrite lookup_insert_eq).
    split; [exact HlB|]. split; [now rewrite HlB|].
    split; [exact HlA|]. split; [now rewrite HlA|].
    split; [intros C H1 H2; now rewrite !lookup_insert_ne by congruence|].
    split; [reflexivity|].
    erewrite call_lookup by (cbn [heap]; apply lookup_insert_eq).
    cbn [heap wtrace]. rewrite close_eq. cbn [fst snd self trace].
    rewrite close_events_fresh, app_nil_r, insert_insert_eq. reflexivity.
  - intros D d HD Hne.
    unfold move_assign. rewrite bool_decide_eq_true_2 by exact Hne.
    erewrite call_lookup by (cbn [heap]; exact HD).
    rewrite close_eq. cbn [fst snd self trace heap wtrace].
    rewrite lookup_insert_ne by congruence. rewrite HA.
    erewrite call_lookup by (cbn [heap]; apply lookup_insert_eq).
    cbn [fst snd self trace heap wtrace bind set_socket set_connected
         socket_ connected_].
    rewrite insert_insert_eq.
    erewrite call_lookup
      by (cbn [heap]; rewrite lookup_insert_ne by congruence; exact HA).
    rewrite reset_socket_eq. cbn [fst snd self trace heap wtrace].
    eexists. split; [reflexivity|]. cbn [heap wtrace].
    assert (HlD : <[A:=fresh]> (<[D:=mkTcpClient (socket_ a) (connected_ a)]> h) !! D
                  = Some (mkTcpClient (socket_ a) (connected_ a)))
      by (now rewrite lookup_insert_ne, lookup_insert_eq by congruence).
    assert (HlA : <[A:=fresh]> (<[D:=mkTcpClient (socket_ a) (connected_ a)]> h) !! A
                  = Some (mkTcpClient invalid_socket false))
      by (now rewrite lookup_insert_eq).
    split; [exact HlD|]. split; [now rewrite HlD|].
    split; [exact HlA|]. split; [now rewrite HlA|].
    split; [intros C H1 H2; now rewrite !lookup_insert_ne by congruence|].
    reflexivity.
Qed.

Lemma move_transfers_ownership_witness :
  (exists w1,
     move_construct 2 1 (mkWorld {[1%nat := live]} []) = Some w1 /\
     heap w1 !! 2%nat = Some (mkTcpClient 3 true) /\
     is_connected <$> heap w1 !! 2%nat = Some true /\
     heap w1 !! 1%nat = Some (mkTcpClient invalid_socket false) /\
     is_connected <$> heap w1 !! 1%nat = Some false /\
     (forall C, C <> 1%nat -> C <> 2%nat ->
        heap w1 !! C = heap (mkWorld {[1%nat := live]} []) !! C) /\
     wtrace w1 = [] /\
     call 1 close w1 = Some (Ok tt, w1)) /\
  (exists w2,
     move_assign 2 1 (mkWorld {[1%nat := live; 2%nat := mkTcpClient 5 true]} [])
       = Some w2 /\
     heap w2 !! 2%nat = Some (mkTcpClient 3 true) /\
     is_connected <$> heap w2 !! 2%nat = Some true /\
     heap w2 !! 1%nat = Some (mkTcpClient invalid_socket false) /\
     is_connected <$> heap w2 !! 1%nat = Some false /\
     (forall C, C <> 1%nat -> C <> 2%nat ->
        heap w2 !! C =
        heap (mkWorld {[1%nat := live; 2%nat := mkTcpClient 5 true]} []) !! C) /\
     wtrace w2 = [] ++ [EvClose 5]).
Proof.
  split.
  - destruct (move_transfers_ownership (mkWorld {[1%nat := live]} []) 1%nat live)
      as [Hctor _]; [reflexivity|].
    apply (Hctor 2%nat). reflexivity.
  - destruct (move_transfers_ownership
                (mkWorld {[1%nat := live; 2%nat := mkTcpClient 5 true]} [])
                1%nat live)
      as [_ Hassign]; [reflexivity|].
    apply (Hassign 2%nat (mkTcpClient 5 true)); [reflexivity | lia].
Defined.

(** *** Every member keeps the object consistent *)

Lemma consistent_fresh : consistent fresh.
Proof. split; intros H; [discriminate H | reflexivity]. Qed.

Lemma consistent_adopted (fd : Z) :
  fd <> invalid_socket -> consistent (mkTcpClient fd true).
Proof. intros H. split; intros H'; [exact H | discriminate H']. Qed.

Lemma keeps_close : keeps_consistent close.
Proof. intros s _. rewrite close_eq. apply consistent_fresh. Qed.

Lemma keeps_reset_socket : keeps_consistent reset_socket.
Proof. intros s _. rewrite reset_socket_eq. apply consistent_fresh. Qed.

Lemma keeps_initialize_platform : keeps_consistent initialize_platform.
Proof. intros s H. exact H. Qed.

Lemma keeps_connect (os : Platform) host port :
  keeps_consistent (connect os host port).
Proof.
  intros s H. destruct (empty host) eqn:Hh.
  - unfold connect. rewrite Hh. exact H.
  - pose proof (connect_nonempty os host port s Hh) as Hc. cbv zeta in Hc.
    destruct (negb _ || bool_decide _).
    + rewrite Hc. apply consistent_fresh.
    + destruct Hc as (tr & out & Hpol & Hc). rewrite Hc.
      destruct out as [fd|]; cbn [snd self].
      * apply consistent_adopted. eapply attempt_policy_adopted, Hpol.
      * apply consistent_fresh.
Qed.

Lemma send_loop_self (os : Platform) bytes length (fuel : nat) :
  forall total_sent s,
    self (snd (send_loop os fuel bytes length total_sent s)) = self s.
Proof.
  induction fuel as [|fuel IH]; intros total_sent s; [reflexivity|].
  destruct (total_sent <? length) eqn:Hlt.
  - rewrite send_loop_turn by exact Hlt. cbv zeta.
    destruct (to_int _ <=? 0); [reflexivity|]. now rewrite IH.
  - now rewrite send_loop_done.
Qed.

Lemma send_self (os : Platform) fuel data length (s : state) :
  self (snd (send os fuel data length s)) = self s.
Proof.
  unfold send. unfold bind at 1.
  unfold ensure_connected, bind, get_connected, get_socket.
  destruct (negb _ || _); [reflexivity|]. unfold ret.
  destruct (bool_decide _ && _); [reflexivity|]. apply send_loop_self.
Qed.

Lemma keeps_send (os : Platform) fuel data length :
  keeps_consistent (send os fuel data length).
Proof. intros s H. now rewrite send_self. Qed.

Lemma keeps_send_string (os : Platform) fuel data :
  keeps_consistent (send_string os fuel data).
Proof.
  intros s H. unfold send_string. destruct (empty data); [exact H|].
  now rewrite send_self.
Qed.

Lemma keeps_receive (os : Platform) max_bytes :
  keeps_consistent (receive os max_bytes).
Proof.
  intros s H. unfold receive. unfold bind at 1.
  unfold ensure_connected, bind, get_connected, get_socket.
  destruct (negb _ || _); [exact H|]. unfold ret.
  destruct (max_bytes =? 0); [exact H|].
  unfold syscall. cbn [fst snd self trace].
  destruct (fst _ >? 0); [exact H|].
  destruct (fst _ =? 0); [|exact H].
  rewrite close_eq. apply consistent_fresh.
Qed.

(** *** The heap *)

Lemma world_consistent_insert (h : gmap nat TcpClient) tr tr' a c :
  world_consistent (mkWorld h tr) -> consistent c ->
  world_consistent (mkWorld (<[a := c]> h) tr').
Proof.
  intros Hw Hc b c' Hb. cbn [heap] in Hb.
  destruct (decide (a = b)) as [->|Hne].
  - rewrite lookup_insert_eq in Hb. now inversion Hb; subst.
  - rewrite lookup_insert_ne in Hb by exact Hne. exact (Hw b c' Hb).
Qed.

Lemma world_consistent_delete (h : gmap nat TcpClient) tr tr' a :
  world_consistent (mkWorld h tr) ->
  world_consistent (mkWorld (delete a h) tr').
Proof.
  intros Hw b c' Hb. cbn [heap] in Hb.
  apply lookup_delete_Some in Hb. destruct Hb as [_ Hb]. exact (Hw b c' Hb).
Qed.

Lemma call_consistent {A} (this : nat) (m : M A) (w : world) r w' :
  keeps_consistent m ->
  world_consistent w ->
  call this m w = Some (r, w') ->
  world_consistent w'.
Proof.
  intros Hm Hw Hcall. apply call_inv in Hcall.
  destruct Hcall as (c & Hc & _ & ->). destruct w as [h tr].
  eapply world_consistent_insert; [exact Hw|].
  apply (Hm (mkState c tr)). exact (Hw this c Hc).
Qed.

Lemma forget_call_consistent {A} (this : nat) (m : M A) (w w' : world) :
  keeps_consistent m ->
  world_consistent w ->
  forget (call this m w) = Some w' ->
  world_consistent w'.
Proof.
  intros Hm Hw H. destruct (call this m w) as [[r w1]|] eqn:E; [|discriminate].
  inversion H; subst. eapply call_consistent; eauto.
Qed.

Lemma exec_consistent (os : Platform) (fuel : nat) (o : op) (w w' : world) :
  world_consistent w -> exec os fuel o w = Some w' -> world_consistent w'.
Proof.
  intros Hw Hx. destruct o; cbn [exec] in Hx.
  - (* construct *)
    unfold construct in Hx. destruct (heap w !! this); [discriminate|].
    destruct (call this initialize_platform _) as [[r w1]|] eqn:E; [|discriminate].
    inversion Hx; subst.
    eapply call_consistent; [apply keeps_initialize_platform| |exact E].
    destruct w as [h tr]. eapply world_consistent_insert; [exact Hw|].
    apply consistent_fresh.
  - (* destruct *)
    unfold destruct_ in Hx.
    destruct (call this close w) as [[r w1]|] eqn:E; [|discriminate].
    inversion Hx; subst. destruct w1 as [h1 tr1].
    eapply world_consistent_delete.
    eapply call_consistent; [apply keeps_close|exact Hw|exact E].
  - (* move construction *)
    unfold move_construct in Hx.
    destruct (heap w !! this); [discriminate|].
    destruct (heap w !! other) as [o|] eqn:Ho; [|discriminate].
    destruct (call other reset_socket _) as [[r w1]|] eqn:E; [|discriminate].
    inversion Hx; subst.
    eapply call_consistent; [apply keeps_reset_socket| |exact E].
    destruct w as [h tr]. eapply world_consistent_insert; [exact Hw|].
    rewrite rebuild. exact (Hw other o Ho).
  - (* move assignment *)
    unfold move_assign in Hx. destruct (bool_decide (this <> other)).
    + destruct (call this close w) as [[r1 w1]|] eqn:E1; [|discriminate].
      assert (H1 : world_consistent w1)
        by (eapply call_consistent; [apply keeps_close|exact Hw|exact E1]).
      destruct (heap w1 !! other) as [o|] eqn:Ho; [|discriminate].
      destruct (call this _ w1) as [[r2 w2]|] eqn:E2; [|discriminate].
      assert (H2 : world_consistent w2).
      { eapply call_consistent; [|exact H1|exact E2].
        intros s _. cbn. rewrite rebuild. exact (H1 other o Ho). }
      destruct (call other reset_socket w2) as [[r3 w3]|] eqn:E3; [|discriminate].
      inversion Hx; subst.
      eapply call_consistent; [apply keeps_reset_socket|exact H2|exact E3].
    + destruct (heap w !! this); [|discriminate]. now inversion Hx; subst.
  - eapply forget_call_consistent; [apply keeps_connect|exact Hw|exact Hx].
  - eapply forget_call_consistent; [apply keeps_send|exact Hw|exact Hx].
  - eapply forget_call_consistent; [apply keeps_send_string|exact Hw|exact Hx].
  - eapply forget_call_consistent; [apply keeps_receive|exact Hw|exact Hx].
  - eapply forget_call_consistent; [apply keeps_close|exact Hw|exact Hx].
  - eapply forget_call_consistent; [|exact Hw|exact Hx]. intros s H. exact H.
Qed.

(** *** Every member accounts for its descriptors *)

Lemma open_after_app held tr1 tr2 :
  open_after held (tr1 ++ tr2) = open_after (open_after held tr1) tr2.
Proof.
  revert held. induction tr1 as [|e tr1 IH]; intros held; [reflexivity|].
  destruct e; cbn [app open_after]; apply IH.
Qed.

Lemma holds_fresh : holds fresh = ∅.
Proof. reflexivity. Qed.

Lemma open_after_close (c : TcpClient) held :
  consistent c ->
  open_after (holds c ⊎ held) (close_events c) = held.
Proof.
  intros [H1 H2]. unfold close_events, holds.
  destruct (connected_ c) eqn:Hc.
  - specialize (H1 eq_refl). apply Z.eqb_neq in H1. rewrite H1.
    cbn [open_after]. multiset_solver.
  - rewrite (H2 eq_refl), Z.eqb_refl. cbn [open_after]. multiset_solver.
Qed.

Lemma accounts_unchanged {A} (m : M A) :
  (forall s, exists tr,
      snd (m s) = mkState (self s) (trace s ++ tr) /\
      forall held, open_after held tr = held) ->
  accounts m.
Proof.
  intros H s _. destruct (H s) as (tr & -> & Hq). exists tr.
  split; [reflexivity|]. intros held. apply Hq.
Qed.

Lemma accounts_close : accounts close.
Proof.
  intros s Hs. exists (close_events (self s)). rewrite close_eq.
  split; [reflexivity|]. intros held. cbn [snd self].
  rewrite holds_fresh, open_after_close by exact Hs. multiset_solver.
Qed.

Lemma accounts_connect (os : Platform) host port :
  accounts (connect os host port).
Proof.
  intros s Hs. destruct (empty host) eqn:Hh.
  - exists []. unfold connect. rewrite Hh. cbn [snd throw].
    split; [now rewrite app_nil_r|reflexivity].
  - pose proof (connect_nonempty os host port s Hh) as Hc. cbv zeta in Hc.
    destruct (negb _ || bool_decide _).
    + rewrite Hc. cbn [snd self trace]. eexists. rewrite <- app_assoc.
      split; [reflexivity|]. intros held.
      rewrite open_after_app, open_after_close by exact Hs.
      cbn [open_after]. rewrite holds_fresh. multiset_solver.
    + destruct Hc as (tr & out & Hpol & Hc). rewrite Hc.
      exists (close_events (self s)
                ++ (EvGetaddrinfo host (to_string port) AF_UNSPEC SOCK_STREAM
                      IPPROTO_TCP
                      (fst (sys_getaddrinfo os (trace s ++ close_events (self s))
                              host (to_string port) AF_UNSPEC SOCK_STREAM IPPROTO_TCP))
                      (snd (sys_getaddrinfo os (trace s ++ close_events (self s))
                              host (to_string port) AF_UNSPEC SOCK_STREAM IPPROTO_TCP))
                    :: tr ++ [EvFreeaddrinfo
                      (snd (sys_getaddrinfo os (trace s ++ close_events (self s))
                              host (to_string port) AF_UNSPEC SOCK_STREAM IPPROTO_TCP))])).
      split.
      * destruct out; cbn [snd trace]; now rewrite <- !app_assoc.
      * intros held. rewrite open_after_app, open_after_close by exact Hs.
        cbn [open_after]. rewrite open_after_app.
        rewrite (attempt_policy_open _ _ _ Hpol). cbn [open_after].
        destruct out; cbn [snd self holds connected_ socket_];
          [reflexivity|]. rewrite holds_fresh. multiset_solver.
Qed.

Lemma send_loop_quiet (os : Platform) bytes length (fuel : nat) :
  forall total_sent s,
    exists tr,
      snd (send_loop os fuel bytes length total_sent s)
        = mkState (self s) (trace s ++ tr) /\
      forall held, open_after held tr = held.
Proof.
  induction fuel as [|fuel IH]; intros total_sent s.
  - exists []. cbn. now rewrite app_nil_state.
  - destruct (total_sent <? length) eqn:Hlt.
    + rewrite send_loop_turn by exact Hlt. cbv zeta.
      destruct (to_int _ <=? 0).
      * eexists [_]. split; [reflexivity|]. reflexivity.
      * match goal with
        | |- context [send_loop os fuel bytes length ?t ?s1] =>
          destruct (IH t s1) as (tr & Htr & Hq); rewrite Htr
        end.
        cbn [self trace]. eexists (_ :: tr). rewrite <- app_assoc.
        split; [reflexivity|]. intros held. cbn [open_after]. apply Hq.
    + rewrite send_loop_done by exact Hlt. exists [].
      cbn [snd]. now rewrite app_nil_state.
Qed.

Lemma accounts_send (os : Platform) fuel data length :
  accounts (send os fuel data length).
Proof.
  apply accounts_unchanged. intros s.
  unfold send. unfold bind at 1.
  unfold ensure_connected, bind, get_connected, get_socket.
  destruct (negb _ || _).
  { exists []. cbn. now rewrite app_nil_state. }
  unfold ret. destruct (bool_decide _ && _).
  { exists []. cbn. now rewrite app_nil_state. }
  apply send_loop_quiet.
Qed.

Lemma accounts_send_string (os : Platform) fuel data :
  accounts (send_string os fuel data).
Proof.
  unfold send_string. destruct (empty data); [|apply accounts_send].
  apply accounts_unchanged. intros s. exists []. cbn. now rewrite app_nil_state.
Qed.

Lemma accounts_receive (os : Platform) max_bytes :
  accounts (receive os max_bytes).
Proof.
  intros s Hs. unfold receive. unfold bind at 1.
  unfold ensure_connected, bind, get_connected, get_socket.
  destruct (negb (connected_ (self s)) || _) eqn:Hguard.
  { exists []. cbn. split; [now rewrite app_nil_r|reflexivity]. }
  unfold ret. destruct (max_bytes =? 0).
  { exists []. cbn. split; [now rewrite app_nil_r|reflexivity]. }
  unfold syscall. cbn [fst snd self trace].
  destruct (fst _ >? 0).
  { eexists [_]. cbn. split; reflexivity. }
  destruct (fst _ =? 0).
  - rewrite close_eq. cbn [fst snd self trace close_events socket_].
    eexists (_ :: close_events (self s)). rewrite <- app_assoc.
    split; [reflexivity|]. intros held. cbn [open_after].
    rewrite holds_fresh, open_after_close by exact Hs. multiset_solver.
  - unfold last_socket_error, throw. cbn [snd self trace].
    eexists [_]. split; reflexivity.
Qed.

Lemma accounts_observer {A} (f : state -> A) :
  accounts (fun s => (Ok (f s), s)).
Proof.
  apply accounts_unchanged. intros s. exists []. cbn. now rewrite app_nil_state.
Qed.

(** *** The descriptors of a heap *)

Lemma handles_insert_fresh (h : gmap nat TcpClient) a c :
  h !! a = None -> handles (<[a := c]> h) = holds c ⊎ handles h.
Proof.
  intros H. unfold handles.
  rewrite map_fold_insert_L; [reflexivity| |exact H].
  intros; multiset_solver.
Qed.

Lemma handles_delete (h : gmap nat TcpClient) a c :
  h !! a = Some c -> handles h = holds c ⊎ handles (delete a h).
Proof.
  intros H. unfold handles.
  rewrite (map_fold_delete_L _ _ a c h); [reflexivity| |exact H].
  intros; multiset_solver.
Qed.

Lemma handles_insert (h : gmap nat TcpClient) a c c' :
  h !! a = Some c ->
  handles (<[a := c']> h) = holds c' ⊎ handles (delete a h).
Proof.
  intros H. rewrite <- (insert_delete_eq h).
  apply handles_insert_fresh, lookup_delete_eq.
Qed.

Lemma handles_empty : handles ∅ = ∅.
Proof. reflexivity. Qed.

Lemma call_accounted {A} (this : nat) (m : M A) (w : world) r w' :
  accounts m ->
  world_consistent w -> accounted w ->
  call this m w = Some (r, w') ->
  accounted w'.
Proof.
  intros Hm Hw Ha Hcall. apply call_inv in Hcall.
  destruct Hcall as (c & Hc & _ & ->). destruct w as [h tr0].
  unfold accounted in *. cbn [heap wtrace] in *.
  destruct (Hm (mkState c tr0) (Hw this c Hc)) as (tr & Htr & Hopen).
  cbn [self trace] in Htr, Hopen. rewrite Htr, open_after_app, <- Ha.
  rewrite (handles_delete h this c Hc), Hopen.
  apply (handles_insert h this c _ Hc).
Qed.

Lemma forget_call_accounted {A} (this : nat) (m : M A) (w w' : world) :
  accounts m ->
  world_consistent w -> accounted w ->
  forget (call this m w) = Some w' ->
  accounted w'.
Proof.
  intros Hm Hw Ha H. destruct (call this m w) as [[r w1]|] eqn:E; [|discriminate].
  inversion H; subst. eapply call_accounted; eauto.
Qed.

(** The two move operations, with the calls unfolded. *)
Lemma move_construct_eq (w : world) (this other : nat) (o : TcpClient) :
  heap w !! this = None -> heap w !! other = Some o ->
  move_construct this other w =
    Some (mkWorld (<[other := fresh]> (<[this := o]> (heap w))) (wtrace w)).
Proof.
  intros Ht Ho. assert (this <> other) by congruence.
  unfold move_construct. rewrite Ht, Ho, rebuild.
  erewrite call_lookup
    by (cbn [heap]; rewrite lookup_insert_ne by congruence; exact Ho).
  now rewrite reset_socket_eq.
Qed.

Lemma move_assign_eq (w : world) (this other : nat) (d o : TcpClient) :
  this <> other -> heap w !! this = Some d -> heap w !! other = Some o ->
  move_assign this other w =
    Some (mkWorld (<[other := fresh]> (<[this := o]> (heap w)))
            (wtrace w ++ close_events d)).
Proof.
  intros Hne Ht Ho. unfold move_assign.
  rewrite bool_decide_eq_true_2 by exact Hne.
  erewrite call_lookup by exact Ht.
  rewrite close_eq. cbn [fst snd self trace heap wtrace].
  rewrite lookup_insert_ne by congruence. rewrite Ho.
  erewrite call_lookup by (cbn [heap]; apply lookup_insert_eq).
  cbn [fst snd self trace heap wtrace bind set_socket set_connected
       socket_ connected_].
  rewrite rebuild, insert_insert_eq.
  erewrite call_lookup
    by (cbn [heap]; rewrite lookup_insert_ne by congruence; exact Ho).
  now rewrite reset_socket_eq.
Qed.

Lemma move_assign_defined (w w' : world) (this other : nat) :
  this <> other -> move_assign this other w = Some w' ->
  exists d o, heap w !! this = Some d /\ heap w !! other = Some o.
Proof.
  intros Hne H. unfold move_assign in H.
  rewrite bool_decide_eq_true_2 in H by exact Hne.
  destruct (call this close w) as [[r1 w1]|] eqn:E1; [|discriminate].
  apply call_inv in E1. destruct E1 as (d & Hd & _ & ->).
  cbn [heap] in H. rewrite lookup_insert_ne in H by congruence.
  destruct (heap w !! other) as [o|]; [|discriminate]. now exists d, o.
Qed.

Lemma handles_transfer (h : gmap nat TcpClient) (this other : nat) (o : TcpClient) :
  this <> other -> h !! other = Some o ->
  handles (<[other := fresh]> (<[this := o]> h)) = handles (delete this h).
Proof.
  intros Hne Ho.
  rewrite (handles_insert (<[this := o]> h) other o fresh)
    by (rewrite lookup_insert_ne by congruence; exact Ho).
  rewrite holds_fresh, delete_insert_ne by congruence.
  rewrite <- (insert_delete_eq (delete other h)).
  rewrite handles_insert_fresh by apply lookup_delete_eq.
  rewrite (handles_delete (delete this h) other o)
    by (rewrite lookup_delete_ne by congruence; exact Ho).
  rewrite (delete_delete h). multiset_solver.
Qed.

Lemma exec_accounted (os : Platform) (fuel : nat) (o : op) (w w' : world) :
  world_consistent w -> accounted w ->
  exec os fuel o w = Some w' -> accounted w'.
Proof.
  intros Hw Ha Hx. destruct o; cbn [exec] in Hx.
  - (* construct *)
    unfold construct in Hx. destruct (heap w !! this) eqn:Ht; [discriminate|].
    erewrite call_lookup in Hx by (cbn [heap]; apply lookup_insert_eq).
    inversion Hx; subst. unfold accounted in *. cbn.
    rewrite insert_insert_eq, handles_insert_fresh by exact Ht.
    rewrite <- Ha. change (holds _) with (∅ : gmultiset Z).
    multiset_solver.
  - (* destruct *)
    unfold destruct_ in Hx.
    destruct (call this close w) as [[r w1]|] eqn:E; [|discriminate].
    inversion Hx; subst.
    pose proof (call_accounted _ _ _ _ _ accounts_close Hw Ha E) as H1.
    apply call_inv in E. destruct E as (c & Hc & _ & ->).
    unfold accounted in *. cbn [heap wtrace] in *. rewrite <- H1.
    rewrite close_eq. cbn [snd self].
    rewrite (handles_delete (<[this := fresh]> (heap w)) this fresh)
      by apply lookup_insert_eq.
    rewrite holds_fresh. multiset_solver.
  - (* move construction *)
    destruct (heap w !! this) eqn:Ht;
      [unfold move_construct in Hx; now rewrite Ht in Hx|].
    destruct (heap w !! other) as [c|] eqn:Ho;
      [|unfold move_construct in Hx; now rewrite Ht, Ho in Hx].
    rewrite (move_construct_eq w this other c Ht Ho) in Hx.
    inversion Hx; subst. unfold accounted in *. cbn [heap wtrace].
    rewrite handles_transfer by congruence.
    rewrite delete_id by exact Ht. exact Ha.
  - (* move assignment *)
    destruct (decide (this = other)) as [->|Hne].
    + unfold move_assign in Hx.
      rewrite bool_decide_eq_false_2 in Hx by (intros H; now apply H).
      destruct (heap w !! other); [|discriminate]. now inversion Hx; subst.
    + destruct (move_assign_defined w w' this other Hne Hx)
        as (d & c & Hd & Hc).
      rewrite (move_assign_eq w this other d c Hne Hd Hc) in Hx.
      inversion Hx; subst. unfold accounted in *. cbn [heap wtrace].
      rewrite handles_transfer by assumption.
      rewrite open_after_app, <- Ha, (handles_delete (heap w) this d Hd).
      now rewrite open_after_close by exact (Hw this d Hd).
  - eapply forget_call_accounted; [apply accounts_connect|exact Hw|exact Ha|exact Hx].
  - eapply forget_call_accounted; [apply accounts_send|exact Hw|exact Ha|exact Hx].
  - eapply forget_call_accounted; [apply accounts_send_string|exact Hw|exact Ha|exact Hx].
  - eapply forget_call_accounted; [apply accounts_receive|exact Hw|exact Ha|exact Hx].
  - eapply forget_call_accounted; [apply accounts_close|exact Hw|exact Ha|exact Hx].
  - eapply forget_call_accounted; [apply accounts_observer|exact Hw|exact Ha|exact Hx].
Qed.

Lemma handles_owner (h : gmap nat TcpClient) a c :
  h !! a = Some c -> connected_ c = true -> socket_ c ∈ handles h.
Proof.
  intros Hc Hconn. rewrite (handles_delete h a c Hc).
  unfold holds. rewrite Hconn. multiset_solver.
Qed.

Lemma run_ops_steps (os : Platform) (fuel : nat) (ops : list op) :
  forall w w', run_ops os fuel ops w = Some w' -> steps os w w'.
Proof.
  assert (Htrans : forall w1 w2, steps os w1 w2 ->
            forall ops w3, run_ops os fuel ops w2 = Some w3 -> steps os w1 w3).
  { intros w1 w2 H12 ops'. revert w2 H12.
    induction ops' as [|o ops' IH]; intros w2 H12 w3 Hrun; cbn [run_ops] in Hrun.
    - now inversion Hrun; subst.
    - destruct (exec os fuel o w2) as [w2'|] eqn:E; [|discriminate].
      eapply IH; [|exact Hrun]. eapply steps_step; eauto. }
  intros w w' H. eapply Htrans; [apply steps_refl|exact H].
Qed.

Lemma empty_world_consistent tr : world_consistent (mkWorld ∅ tr).
Proof. intros a c H. cbn [heap] in H. now rewrite lookup_empty in H. Qed.

Lemma empty_world_accounted : accounted (mkWorld ∅ []).
Proof. reflexivity. Qed.

(** C9. Every operation (construction, destruction, move construction,
    move assignment, [connect], both [send]s, [receive], [close],
    [is_connected]), whether it returns or throws, takes a heap of
    consistent objects to a heap of consistent objects, where an object is
    consistent when [connected_] is true only with a descriptor other than
    the sentinel and false only with the sentinel.  Hence every state
    reached by any sequence of operations from a consistent one, in
    particular from the empty heap, is consistent.  The descriptor of a
    connected object is moreover a valid one: when the descriptors were
    accounted for at the start, they still are, so it is a descriptor that
    [socket] returned and that has not been closed since, and no other
    object owns it. *)
Theorem state_invariant (os : Platform) (w0 w : world) :
  world_consistent w0 -> steps os w0 w ->
  world_consistent w /\
  (accounted w0 ->
   accounted w /\
   (forall a c, heap w !! a = Some c -> is_connected c = true ->
      socket_ c <> invalid_socket /\ socket_ c ∈ open_after ∅ (wtrace w))).
Proof.
  intros H0 Hsteps.
  assert (H : world_consistent w /\ (accounted w0 -> accounted w)).
  { induction Hsteps as [w|fuel o w1 w2 w3 H12 IH Hx].
    - now split.
    - destruct (IH H0) as [H2 A2]. split.
      + eapply exec_consistent; [exact H2|exact Hx].
      + intros A0. eapply exec_accounted; [exact H2|exact (A2 A0)|exact Hx]. }
  destruct H as [Hc Ha]. split; [exact Hc|].
  intros A0. split; [exact (Ha A0)|].
  intros a c Hl Hconn. split.
  - now apply (Hc a c Hl).
  - rewrite <- (Ha A0). now apply (handles_owner _ a c).
Qed.

Lemma state_invariant_witness :
  exists w,
    run_ops loopback 8 session (mkWorld ∅ []) = Some w /\
    world_consistent w /\
    accounted w /\
    (forall a c, heap w !! a = Some c -> is_connected c = true ->
       socket_ c <> invalid_socket /\ socket_ c ∈ open_after ∅ (wtrace w)).
Proof.
  eexists. split; [vm_compute; reflexivity|].
  destruct (state_invariant loopback (mkWorld ∅ [])
              (default (mkWorld ∅ [])
                 (run_ops loopback 8 session (mkWorld ∅ []))))
    as [Hc Ha].
  - apply empty_world_consistent.
  - apply (run_ops_steps loopback 8 session). vm_compute. reflexivity.
  - split; [exact Hc|]. apply Ha. apply empty_world_accounted.
Defined.

(** The session, evaluated: the first object ends without a socket, the
    second one lost its socket when the peer shut down, and every
    descriptor opened was closed. *)
Example session_loopback :
  match run_ops loopback 8 session (mkWorld ∅ []) with
  | Some w => (heap w !! 1%nat, heap w !! 2%nat, wtrace w)
  | None => (None, None, [])
  end =
  (Some fresh, Some fresh,
   [EvGetaddrinfo "localhost" "8080" 0 1 6 0 [candidate6; candidate4];
    EvSocket 10 1 6 3; EvConnect 3 [Byte.x0a; Byte.x00] 28 (-1); EvClose 3;
    EvSocket 2 1 6 3; EvConnect 3 [Byte.x02; Byte.x00] 16 0;
    EvFreeaddrinfo [candidate6; candidate4];
    EvSend 3 [Byte.x50; Byte.x49; Byte.x4e; Byte.x47] 4 2;
    EvSend 3 [Byte.x4e; Byte.x47] 2 2;
    EvRecv 3 4096 0 []; EvClose 3]).
Proof. vm_compute. reflexivity. Qed.

(** * Further properties of the members *)

(** ** receive: the other outcomes *)

Lemma length_string_of_list_byte (l : list Byte.byte) :
  String.length (string_of_list_byte l) = List.length l.
Proof. induction l as [|b l IH]; simpl; [reflexivity|f_equal; exact IH]. Qed.

(** What [receive] does on a connected object for a positive [max_bytes],
    with the monad unfolded. *)
Lemma receive_connected (os : Platform) max_bytes (s : state) :
  connected_ (self s) = true -> socket_ (self s) <> invalid_socket ->
  max_bytes <> 0 ->
  receive os max_bytes s =
    let fd := socket_ (self s) in
    let r := sys_recv os (trace s) fd max_bytes in
    let log1 := trace s ++ [EvRecv fd max_bytes (fst r) (snd r)] in
    let buffer :=
      take (Z.to_nat max_bytes)
        (snd r ++ drop (List.length (snd r)) (resize (Z.to_nat max_bytes) [])) in
    if fst r >? 0 then
      (Ok (string_of_list_byte (resize (Z.to_nat (fst r)) buffer)),
       mkState (self s) log1)
    else if fst r =? 0 then
      (Ok "", mkState fresh (log1 ++ [EvClose fd]))
    else
      (Throw (receive_failed os log1), mkState (self s) log1).
Proof.
  intros Hc Hs Hm. unfold receive. unfold bind at 1.
  rewrite ensure_connected_passes by assumption.
  apply Z.eqb_neq in Hm. rewrite Hm.
  unfold bind at 1. unfold get_socket. unfold bind at 1. unfold syscall.
  cbn [fst snd self trace]. cbv zeta.
  destruct (fst _ >? 0); [reflexivity|].
  destruct (fst _ =? 0); [|reflexivity].
  unfold bind at 1. rewrite close_eq. cbn [self trace ret].
  unfold close_events; cbn [self socket_].
  apply Z.eqb_neq in Hs. now rewrite Hs.
Qed.

Lemma receive_buffer (written : list Byte.byte) (n max_bytes : nat) :
  (n <= max_bytes)%nat -> (n <= List.length written)%nat ->
  resize n (take max_bytes
              (written ++ drop (List.length written) (resize max_bytes [])))
  = take n written.
Proof.
  intros Hn Hw. unfold resize at 1.
  rewrite take_take, Nat.min_l by exact Hn.
  rewrite take_app_le by exact Hw.
  rewrite length_take, length_app, length_drop.
  unfold resize. rewrite take_nil, app_nil_l, length_replicate.
  cbn [List.length]. rewrite Nat.sub_0_r.
  replace (n - _)%nat with 0%nat by lia. cbn [replicate]. apply app_nil_r.
Qed.

(** X1. On a connected object [receive(0)] returns the empty string at
    once: no platform call is made and the object stays connected. *)
Theorem receive_nothing_requested (os : Platform) (s : state) :
  consistent (self s) ->
  is_connected (self s) = true ->
  receive os 0 s = (Ok "", s).
Proof.
  intros [Hinv _] Hc. unfold is_connected in Hc.
  unfold receive. unfold bind at 1.
  rewrite ensure_connected_passes by auto. reflexivity.
Qed.

Lemma receive_nothing_requested_witness :
  receive loopback 0 (mkState live []) = (Ok "", mkState live []).
Proof.
  apply (receive_nothing_requested loopback (mkState live []));
    [exact live_consistent | reflexivity].
Defined.

(** X2. On a connected object, when the one [recv] call reports [n] bytes
    with [0 < n <= max_bytes] and wrote at least that many, [receive]
    returns exactly the first [n] bytes written, so a string of length [n]
    that may be shorter than [max_bytes]; the object is unchanged and the
    log gains that single [recv] call. *)
Theorem receive_partial_read (os : Platform) (max_bytes : Z) (s : state) :
  consistent (self s) ->
  is_connected (self s) = true ->
  0 < fst (sys_recv os (trace s) (socket_ (self s)) max_bytes) <= max_bytes ->
  (Z.to_nat (fst (sys_recv os (trace s) (socket_ (self s)) max_bytes))
     <= List.length (snd (sys_recv os (trace s) (socket_ (self s)) max_bytes)))%nat ->
  let r := sys_recv os (trace s) (socket_ (self s)) max_bytes in
  receive os max_bytes s =
    (Ok (string_of_list_byte (take (Z.to_nat (fst r)) (snd r))),
     mkState (self s)
       (trace s ++ [EvRecv (socket_ (self s)) max_bytes (fst r) (snd r)])) /\
  String.length (string_of_list_byte (take (Z.to_nat (fst r)) (snd r)))
    = Z.to_nat (fst r).
Proof.
  intros [Hinv _] Hc Hn Hw r. unfold is_connected in Hc. fold r in Hn, Hw.
  split.
  - rewrite receive_connected by (auto; lia). cbv zeta. fold r.
    destruct (fst r >? 0) eqn:Hg; [|rewrite Z.gtb_ltb in Hg; apply Z.ltb_ge in Hg; lia].
    rewrite receive_buffer by (try exact Hw; lia). reflexivity.
  - rewrite length_string_of_list_byte, length_take. lia.
Qed.

Lemma receive_partial_read_witness :
  receive chatty 4096 (mkState live []) =
    (Ok "PONG", mkState live [EvRecv 3 4096 4 pong]).
Proof.
  apply (receive_partial_read chatty 4096 (mkState live [])).
  - exact live_consistent.
  - reflexivity.
  - simpl. lia.
  - simpl. lia.
Defined.

(** X3. On a connected object, when the [recv] call reports a negative
    value, [receive] throws the [std::runtime_error] of a failed read with
    the text of [errno]; the descriptor is not closed and the object is
    still connected. *)
Theorem receive_error_keeps_connection (os : Platform) (max_bytes : Z) (s : state) :
  consistent (self s) ->
  is_connected (self s) = true ->
  max_bytes <> 0 ->
  fst (sys_recv os (trace s) (socket_ (self s)) max_bytes) < 0 ->
  let r := sys_recv os (trace s) (socket_ (self s)) max_bytes in
  let log1 := trace s ++ [EvRecv (socket_ (self s)) max_bytes (fst r) (snd r)] in
  receive os max_bytes s = (Throw (receive_failed os log1), mkState (self s) log1) /\
  is_connected (self (snd (receive os max_bytes s))) = true.
Proof.
  intros [Hinv _] Hc Hm Hn r log1. unfold is_connected in Hc. fold r in Hn.
  assert (E : receive os max_bytes s
              = (Throw (receive_failed os log1), mkState (self s) log1)).
  { rewrite receive_connected by auto. cbv zeta. fold r. fold log1.
    destruct (fst r >? 0) eqn:Hg; [apply Z.gtb_lt in Hg; lia|].
    destruct (fst r =? 0) eqn:H0; [apply Z.eqb_eq in H0; lia|]. reflexivity. }
  rewrite E. split; [reflexivity|exact Hc].
Qed.

Lemma receive_error_keeps_connection_witness :
  receive refusing 4096 (mkState live []) =
    (Throw (runtime_error "receive failed: errno 111"),
     mkState live [EvRecv 3 4096 (-1) []]).
Proof.
  apply (receive_error_keeps_connection refusing 4096 (mkState live []));
    [exact live_consistent | reflexivity | discriminate | simpl; lia].
Defined.

(** ** connect: resolution, and what the caller can tell afterwards *)

(** X4. When the host is not empty and [getaddrinfo] reports an error or
    an empty list, [connect] throws the [std::runtime_error] of a failed
    resolution, whose detail is "no addresses resolved" for an empty list
    and the text of the error code otherwise.  After closing the
    descriptor it held, the object made that one call and no other: no
    socket is opened and the list is not freed.  The object is left without
    a socket. *)
Theorem connect_resolution_failure (os : Platform) host port (s : state) :
  empty host = false ->
  fst (sys_getaddrinfo os (trace s ++ close_events (self s)) host
         (to_string port) AF_UNSPEC SOCK_STREAM IPPROTO_TCP) <> 0 \/
  snd (sys_getaddrinfo os (trace s ++ close_events (self s)) host
         (to_string port) AF_UNSPEC SOCK_STREAM IPPROTO_TCP) = [] ->
  let r := sys_getaddrinfo os (trace s ++ close_events (self s)) host
             (to_string port) AF_UNSPEC SOCK_STREAM IPPROTO_TCP in
  connect os host port s =
    (Throw (runtime_error
              ("getaddrinfo failed: " +:+
               (if bool_decide (snd r = []) then "no addresses resolved"
                else gai_strerror os (fst r)))),
     mkState (mkTcpClient invalid_socket false)
       (trace s ++ close_events (self s) ++
        [EvGetaddrinfo host (to_string port) AF_UNSPEC SOCK_STREAM IPPROTO_TCP
           (fst r) (snd r)])).
Proof.
  intros Hh Hfail r. fold r in Hfail.
  pose proof (connect_nonempty os host port s Hh) as H. cbv zeta in H.
  fold r in H.
  assert (Hcond : negb (fst r =? 0) || bool_decide (snd r = []) = true).
  { destruct Hfail as [Hrc|Hnil].
    - apply Z.eqb_neq in Hrc. now rewrite Hrc.
    - rewrite (bool_decide_eq_true_2 _ Hnil). apply orb_true_r. }
  rewrite Hcond in H. rewrite H. unfold resolution_failed, fresh.
  now rewrite <- app_assoc.
Qed.

Lemma connect_resolution_failure_witness :
  connect loopback "no.such.host" 8080 (mkState live []) =
    (Throw (runtime_error "getaddrinfo failed: no addresses resolved"),
     mkState fresh [EvClose 3; EvGetaddrinfo "no.such.host" "8080" 0 1 6 (-2) []]).
Proof.
  apply (connect_resolution_failure loopback "no.such.host" 8080 (mkState live [])).
  - reflexivity.
  - right. reflexivity.
Defined.

(** X5. A [connect] with a non-empty host always ends, by returning or by
    throwing [std::runtime_error]; it returns exactly when the object is
    connected afterwards, and then on a descriptor other than the sentinel.
    So after such a call [is_connected()] tells whether it succeeded,
    whatever the object held before. *)
Theorem connect_returns_iff_connected (os : Platform) host port (s : state) :
  empty host = false ->
  (fst (connect os host port s) = Ok tt \/
   exists what, fst (connect os host port s) = Throw (runtime_error what)) /\
  (fst (connect os host port s) = Ok tt <->
   is_connected (self (snd (connect os host port s))) = true) /\
  (fst (connect os host port s) = Ok tt ->
   socket_ (self (snd (connect os host port s))) <> invalid_socket).
Proof.
  intros Hh. pose proof (connect_nonempty os host port s Hh) as H.
  cbv zeta in H. destruct (negb _ || bool_decide _).
  - rewrite H. cbn [fst snd self]. unfold resolution_failed.
    split; [right; eauto|]. split; [split; discriminate|discriminate].
  - destruct H as (tr & out & Hpol & H). rewrite H.
    destruct out as [fd|]; cbn [fst snd self is_connected connected_ socket_].
    + split; [now left|]. split; [tauto|].
      intros _. eapply attempt_policy_adopted, Hpol.
    + unfold connect_failed.
      split; [right; eauto|]. split; [split; discriminate|discriminate].
Qed.

Lemma connect_returns_iff_connected_witness :
  (fst (connect refusing "localhost" 8080 (mkState live [])) = Ok tt <->
   is_connected (self (snd (connect refusing "localhost" 8080 (mkState live []))))
     = true).
Proof.
  apply (connect_returns_iff_connected refusing "localhost" 8080 (mkState live [])).
  reflexivity.
Defined.

(** ** send: what is written, and in which order *)

Lemma to_size_range (z : Z) : 0 <= to_size z < SIZE_MOD.
Proof. unfold to_size. apply Z.mod_pos_bound. reflexivity. Qed.

Lemma send_loop_writes (os : Platform) bytes length (fuel : nat) :
  0 <= length < SIZE_MOD ->
  forall total_sent s,
    0 <= total_sent < SIZE_MOD ->
    exists tr,
      snd (send_loop os fuel bytes length total_sent s)
        = mkState (self s) (trace s ++ tr) /\
      Forall (bounded_write (socket_ (self s)) length) tr.
Proof.
  intros Hlen. induction fuel as [|fuel IH]; intros total_sent s Ht.
  - exists []. cbn. rewrite app_nil_state. now split.
  - destruct (total_sent <? length) eqn:Hlt.
    + rewrite send_loop_turn by exact Hlt. cbv zeta.
      apply Z.ltb_lt in Hlt.
      rewrite (to_size_id (length - total_sent)) by lia.
      destruct (chunk_bounds (length - total_sent)) as [Hc Hmax]; [lia|].
      set (chunk := if length - total_sent >? INT_MAX then INT_MAX
                    else to_int (length - total_sent)) in *.
      set (window := take (Z.to_nat chunk) (drop (Z.to_nat total_sent) bytes)).
      set (r := sys_send os (trace s) (socket_ (self s)) window chunk).
      assert (Hw : bounded_write (socket_ (self s)) length
                     (EvSend (socket_ (self s)) window chunk r)).
      { cbn. split; [reflexivity|]. split; [lia|]. split; [lia|].
        unfold window. rewrite length_take. lia. }
      destruct (to_int r <=? 0).
      * exists [EvSend (socket_ (self s)) window chunk r].
        split; [reflexivity|]. now constructor.
      * destruct (IH (to_size (total_sent + to_int r))
                    (mkState (self s)
                       (trace s ++ [EvSend (socket_ (self s)) window chunk r])))
          as (tr & Htr & Hall); [apply to_size_range|].
        rewrite Htr. cbn [self trace] in *.
        exists (EvSend (socket_ (self s)) window chunk r :: tr).
        rewrite <- app_assoc. split; [reflexivity|]. now constructor.
    + rewrite send_loop_done by exact Hlt. exists [].
      cbn [snd]. rewrite app_nil_state. now split.
Qed.

(** X6. Whatever the platform answers and however [send(data, length)]
    ends, it leaves the object as it was, and everything it adds to the log
    is a write on the object's descriptor that offers at least one byte, at
    most [INT_MAX] bytes and at most [length] bytes.  So a failed [send]
    does not close the connection, no write is ever issued with a zero
    length, and a large buffer is split into chunks the platform call can
    express. *)
Theorem send_writes_are_bounded (os : Platform) (fuel : nat)
    (data : option (list Byte.byte)) (length : Z) (s : state) :
  0 <= length < SIZE_MOD ->
  exists tr,
    snd (send os fuel data length s) = mkState (self s) (trace s ++ tr) /\
    Forall (bounded_write (socket_ (self s)) length) tr.
Proof.
  intros Hlen. unfold send. unfold bind at 1.
  unfold ensure_connected, bind, get_connected, get_socket.
  destruct (negb _ || _).
  { exists []. cbn. rewrite app_nil_state. now split. }
  unfold ret. destruct (bool_decide _ && _).
  { exists []. cbn. rewrite app_nil_state. now split. }
  apply send_loop_writes; [exact Hlen|unfold SIZE_MOD; lia].
Qed.

Lemma send_writes_are_bounded_witness :
  exists tr,
    snd (send refusing 6 (Some ping) 5 (mkState live []))
      = mkState live ([] ++ tr) /\
    Forall (bounded_write 3 5) tr.
Proof.
  apply (send_writes_are_bounded refusing 6 (Some ping) 5 (mkState live [])).
  unfold SIZE_MOD. lia.
Defined.

Section SendOrder.

Variable os : Platform.
Hypothesis send_contract : platform_send_contract os.
Variable bytes : list Byte.byte.
Variable length : Z.
Hypothesis length_range : 0 <= length < SIZE_MOD.

Lemma send_loop_in_order (fuel : nat) :
  forall (total_sent : Z) (s : state),
    0 <= total_sent <= length ->
    (Z.to_nat (length - total_sent) < fuel)%nat ->
    exists tr,
      accepted_bytes tr
        = take (Z.to_nat (bytes_accepted tr)) (drop (Z.to_nat total_sent) bytes) /\
      0 <= bytes_accepted tr /\
      (send_loop os fuel bytes length total_sent s
         = (Ok length, mkState (self s) (trace s ++ tr))
       /\ bytes_accepted tr = length - total_sent
       \/
       send_loop os fuel bytes length total_sent s
         = (Throw (send_failed os (trace s ++ tr)),
            mkState (self s) (trace s ++ tr))
       /\ bytes_accepted tr < length - total_sent).
Proof.
  induction fuel as [|fuel IH]; intros total_sent s Ht Hf; [lia|].
  destruct (total_sent <? length) eqn:Hlt.
  - rewrite send_loop_turn by exact Hlt. apply Z.ltb_lt in Hlt.
    rewrite (to_size_id (length - total_sent)) by lia.
    destruct (chunk_bounds (length - total_sent)) as [Hc Hmax]; [lia|].
    cbv zeta.
    set (chunk := if length - total_sent >? INT_MAX then INT_MAX
                  else to_int (length - total_sent)) in *.
    set (window := take (Z.to_nat chunk) (drop (Z.to_nat total_sent) bytes)).
    set (r := sys_send os (trace s) (socket_ (self s)) window chunk).
    assert (Hr : -1 <= r <= chunk) by (apply send_contract; lia).
    rewrite (to_int_id r) by (unfold INT_MAX in *; lia).
    destruct (r <=? 0) eqn:Hr0.
    + apply Z.leb_le in Hr0.
      exists [EvSend (socket_ (self s)) window chunk r].
      cbn [accepted_bytes bytes_accepted].
      destruct (r >? 0) eqn:Hg; [apply Z.gtb_lt in Hg; lia|].
      replace (Z.to_nat r) with 0%nat by lia.
      split; [reflexivity|]. split; [lia|]. right. split; [reflexivity|lia].
    + apply Z.leb_gt in Hr0.
      rewrite (to_size_id (total_sent + r)) by lia.
      destruct (IH (total_sent + r)
                  (mkState (self s)
                     (trace s ++ [EvSend (socket_ (self s)) window chunk r])))
        as (tr & Hacc & Hpos & Hres); [lia|lia|].
      cbn [self trace] in Hres.
      exists (EvSend (socket_ (self s)) window chunk r :: tr).
      cbn [accepted_bytes bytes_accepted].
      destruct (r >? 0) eqn:Hg; [|rewrite Z.gtb_ltb in Hg; apply Z.ltb_ge in Hg; lia].
      split; [|split; [lia|]].
      * rewrite Hacc. unfold window.
        rewrite take_take, Nat.min_l by lia.
        rewrite Z2Nat.inj_add by lia.
        rewrite <- (drop_drop bytes (Z.to_nat r) (Z.to_nat total_sent)).
        rewrite take_take_drop. f_equal. lia.
      * replace (trace s ++ EvSend (socket_ (self s)) window chunk r :: tr)
          with ((trace s ++ [EvSend (socket_ (self s)) window chunk r]) ++ tr)
          by (now rewrite <- app_assoc).
        destruct Hres as [[Hok Hsum]|[Hthrow Hsum]].
        -- left. split; [exact Hok|lia].
        -- right. split; [exact Hthrow|lia].
  - rewrite send_loop_done by exact Hlt.
    apply Z.ltb_ge in Hlt. assert (total_sent = length) by lia. subst.
    exists []. cbn [accepted_bytes bytes_accepted]. rewrite take_0.
    split; [reflexivity|]. split; [lia|]. left.
    rewrite app_nil_state. split; [reflexivity|lia].
Qed.

End SendOrder.

(** X7. With a platform whose [send] keeps to its contract, a [send] of a
    non-null buffer on a connected object delivers the buffer in order and
    without gaps or repeats: the bytes the platform took, write after
    write, are a prefix of the buffer; when [send] returns it is the prefix
    of [length] bytes, and when it throws it is a strictly shorter one. *)
Theorem send_delivers_in_order (os : Platform) (fuel : nat)
    (buf : list Byte.byte) (length : Z) (s : state) :
  platform_send_contract os ->
  consistent (self s) ->
  is_connected (self s) = true ->
  0 <= length < SIZE_MOD ->
  (Z.to_nat length < fuel)%nat ->
  exists tr,
    accepted_bytes tr = take (Z.to_nat (bytes_accepted tr)) buf /\
    (send os fuel (Some buf) length s
       = (Ok length, mkState (self s) (trace s ++ tr))
     /\ accepted_bytes tr = take (Z.to_nat length) buf
     \/
     send os fuel (Some buf) length s
       = (Throw (send_failed os (trace s ++ tr)),
          mkState (self s) (trace s ++ tr))
     /\ 0 <= bytes_accepted tr < length).
Proof.
  intros Hos [Hinv _] Hc Hlen Hfuel. unfold is_connected in Hc.
  rewrite send_connected by auto. cbn [bool_decide andb default].
  rewrite bool_decide_eq_false_2 by discriminate. cbn [andb].
  destruct (send_loop_in_order os Hos buf length Hlen fuel 0 s)
    as (tr & Hacc & Hpos & Hres); [lia|now rewrite Z.sub_0_r|].
  cbn [Z.to_nat drop] in Hacc. rewrite Z.sub_0_r in Hres.
  exists tr. split; [exact Hacc|].
  destruct Hres as [[Hok Hsum]|[Hthrow Hsum]].
  - left. split; [exact Hok|]. now rewrite Hacc, Hsum.
  - right. split; [exact Hthrow|lia].
Qed.

Lemma send_delivers_in_order_witness :
  exists tr,
    accepted_bytes tr = take (Z.to_nat (bytes_accepted tr)) ping /\
    (send refusing 6 (Some ping) 5 (mkState live [])
       = (Ok 5, mkState live ([] ++ tr))
     /\ accepted_bytes tr = take (Z.to_nat 5) ping
     \/
     send refusing 6 (Some ping) 5 (mkState live [])
       = (Throw (send_failed refusing ([] ++ tr)), mkState live ([] ++ tr))
     /\ 0 <= bytes_accepted tr < 5).
Proof.
  apply (send_delivers_in_order refusing 6 ping 5 (mkState live [])).
  - exact refusing_send_contract.
  - exact live_consistent.
  - reflexivity.
  - unfold SIZE_MOD. lia.
  - simpl. lia.
Defined.

Lemma length_list_byte_of_string (data : string) :
  List.length (list_byte_of_string data) = String.length data.
Proof. induction data as [|c data IH]; simpl; [reflexivity|f_equal; exact IH]. Qed.

(** X8. With a platform whose [send] keeps to its contract, [send(string)]
    on a connected object either returns the size of the string, after the
    platform took exactly the bytes of the string in order, or throws the
    [std::runtime_error] of a failed write after the platform took a
    strictly shorter prefix of them.  The empty string is the first case
    with nothing written. *)
Theorem send_string_delivers (os : Platform) (fuel : nat) (data : string)
    (s : state) :
  platform_send_contract os ->
  consistent (self s) ->
  is_connected (self s) = true ->
  Z.of_nat (String.length data) < SIZE_MOD ->
  (String.length data < fuel)%nat ->
  exists tr,
    send_string os fuel data s
      = (Ok (Z.of_nat (String.length data)), mkState (self s) (trace s ++ tr))
    /\ accepted_bytes tr = list_byte_of_string data
    \/
    send_string os fuel data s
      = (Throw (send_failed os (trace s ++ tr)), mkState (self s) (trace s ++ tr))
    /\ accepted_bytes tr
       = take (Z.to_nat (bytes_accepted tr)) (list_byte_of_string data)
    /\ 0 <= bytes_accepted tr < Z.of_nat (String.length data).
Proof.
  intros Hos [Hinv _] Hc Hlen Hfuel. unfold is_connected in Hc.
  unfold send_string. destruct (empty data) eqn:He.
  - destruct data; [|discriminate]. exists []. left.
    cbn. now rewrite app_nil_state.
  - rewrite send_connected by auto.
    rewrite bool_decide_eq_false_2 by discriminate. cbn [andb default].
    destruct (send_loop_in_order os Hos (list_byte_of_string data)
                (Z.of_nat (String.length data))
                (conj (Nat2Z.is_nonneg _) Hlen) fuel 0 s)
      as (tr & Hacc & Hpos & Hres); [lia|rewrite Z.sub_0_r; lia|].
    cbn [Z.to_nat drop] in Hacc. rewrite Z.sub_0_r in Hres.
    exists tr. destruct Hres as [[Hok Hsum]|[Hthrow Hsum]].
    + left. split; [exact Hok|]. rewrite Hacc, Hsum, Nat2Z.id.
      apply take_ge. now rewrite length_list_byte_of_string.
    + right. split; [exact Hthrow|]. split; [exact Hacc|lia].
Qed.

Lemma chatty_send_contract : platform_send_contract chatty.
Proof. intros log fd buf len Hlen. simpl. lia. Defined.

Lemma send_string_delivers_witness :
  exists tr,
    send_string chatty 5 "PING" (mkState live [])
      = (Ok (Z.of_nat (String.length "PING")), mkState live ([] ++ tr))
    /\ accepted_bytes tr = list_byte_of_string "PING"
    \/
    send_string chatty 5 "PING" (mkState live [])
      = (Throw (send_failed chatty ([] ++ tr)), mkState live ([] ++ tr))
    /\ accepted_bytes tr
       = take (Z.to_nat (bytes_accepted tr)) (list_byte_of_string "PING")
    /\ 0 <= bytes_accepted tr < Z.of_nat (String.length "PING").
Proof.
  apply (send_string_delivers chatty 5 "PING" (mkState live [])).
  - exact chatty_send_contract.
  - exact live_consistent.
  - reflexivity.
  - unfold SIZE_MOD. simpl. lia.
  - simpl. lia.
Defined.

(** X9. A write for which the platform reports zero bytes is a failure
    like a negative one: on a connected object with a non-null buffer and a
    positive length, when the first write reports zero or less, [send]
    throws at once, after that single write and with no retry. *)
Theorem send_no_progress_fails (os : Platform) (fuel : nat)
    (buf : list Byte.byte) (length : Z) (s : state) :
  consistent (self s) ->
  is_connected (self s) = true ->
  0 < length < SIZE_MOD ->
  (0 < fuel)%nat ->
  let chunk := if length >? INT_MAX then INT_MAX else length in
  let window := take (Z.to_nat chunk) buf in
  to_int (sys_send os (trace s) (socket_ (self s)) window chunk) <= 0 ->
  let log1 :=
    trace s ++ [EvSend (socket_ (self s)) window chunk
                  (sys_send os (trace s) (socket_ (self s)) window chunk)] in
  send os fuel (Some buf) length s
    = (Throw (send_failed os log1), mkState (self s) log1).
Proof.
  intros [Hinv _] Hc Hlen Hfuel chunk window Hr log1.
  unfold is_connected in Hc. rewrite send_connected by auto.
  rewrite bool_decide_eq_false_2 by discriminate. cbn [andb default].
  destruct fuel as [|fuel]; [lia|].
  assert (Hlt : (0 <? length) = true) by (apply Z.ltb_lt; lia).
  rewrite send_loop_turn by exact Hlt. cbv zeta.
  rewrite Z.sub_0_r, (to_size_id length) by lia.
  assert (Hchunk : (if length >? INT_MAX then INT_MAX else to_int length) = chunk).
  { unfold chunk. destruct (length >? INT_MAX) eqn:E; [reflexivity|].
    rewrite Z.gtb_ltb in E. apply Z.ltb_ge in E.
    apply to_int_id. unfold INT_MAX in *. lia. }
  rewrite Hchunk. change (drop (Z.to_nat 0) (id buf)) with buf. fold window.
  apply Z.leb_le in Hr. rewrite Hr. reflexivity.
Qed.

Lemma send_no_progress_fails_witness :
  send stalled 1 (Some ping) 5 (mkState live [])
    = (Throw (runtime_error "send failed: errno 111"),
       mkState live [EvSend 3 ping 5 0]).
Proof.
  apply (send_no_progress_fails stalled 1 ping 5 (mkState live [])).
  - exact live_consistent.
  - reflexivity.
  - unfold SIZE_MOD. lia.
  - lia.
  - vm_compute. discriminate.
Defined.

(** ** Lifetime of objects *)

(** X10. Destroying an object closes the descriptor it holds, if it holds
    one, makes no other platform call, and removes that object only: every
    other object is as it was. *)
Theorem destructor_releases (w : world) (a : nat) (c : TcpClient) :
  heap w !! a = Some c ->
  destruct_ a w = Some (mkWorld (delete a (heap w)) (wtrace w ++ close_events c)).
Proof.
  intros Hc. unfold destruct_. erewrite call_lookup by exact Hc.
  rewrite close_eq. cbn [fst snd self trace heap wtrace].
  now rewrite delete_insert_eq.
Qed.

Lemma destructor_releases_witness :
  destruct_ 1 (mkWorld {[1%nat := live; 2%nat := mkTcpClient 5 true]} [])
  = Some (mkWorld
            (delete 1%nat
               (heap (mkWorld {[1%nat := live; 2%nat := mkTcpClient 5 true]} [])))
            ([] ++ close_events live)).
Proof.
  apply (destructor_releases
           (mkWorld {[1%nat := live; 2%nat := mkTcpClient 5 true]} [])
           1%nat live).
  reflexivity.
Defined.

(** X11. Constructing an object at a free address makes no platform call
    and yields an object that is not connected and holds the sentinel;
    destroying it right away gives back the world as it was. *)
Theorem construct_then_destruct (w : world) (a : nat) :
  heap w !! a = None ->
  exists w1,
    construct a w = Some w1 /\
    heap w1 !! a = Some (mkTcpClient invalid_socket false) /\
    wtrace w1 = wtrace w /\
    destruct_ a w1 = Some w.
Proof.
  intros Ha. destruct w as [h tr]. cbn [heap] in Ha.
  unfold construct. cbn [heap wtrace]. rewrite Ha.
  erewrite call_lookup by (cbn [heap]; apply lookup_insert_eq).
  cbn [fst snd self trace heap wtrace initialize_platform ret].
  rewrite insert_insert_eq. eexists. split; [reflexivity|].
  cbn [heap wtrace]. split; [apply lookup_insert_eq|]. split; [reflexivity|].
  unfold destruct_. erewrite call_lookup by (cbn [heap]; apply lookup_insert_eq).
  rewrite close_eq. cbn [fst snd self trace heap wtrace].
  change (close_events _) with (@nil event).
  rewrite app_nil_r, insert_insert_eq.
  now rewrite delete_insert_id by exact Ha.
Qed.

Lemma construct_then_destruct_witness :
  exists w1,
    construct 7 (mkWorld {[1%nat := live]} []) = Some w1 /\
    heap w1 !! 7%nat = Some (mkTcpClient invalid_socket false) /\
    wtrace w1 = wtrace (mkWorld {[1%nat := live]} []) /\
    destruct_ 7 w1 = Some (mkWorld {[1%nat := live]} []).
Proof.
  apply (construct_then_destruct (mkWorld {[1%nat := live]} []) 7%nat).
  reflexivity.
Defined.

(** X12. Move-assigning an object to itself does nothing: its descriptor
    is not closed, it stays as it was, and no platform call is made. *)
Theorem self_move_assign (w : world) (a : nat) (c : TcpClient) :
  heap w !! a = Some c ->
  move_assign a a w = Some w.
Proof.
  intros Hc. unfold move_assign.
  rewrite bool_decide_eq_false_2 by (intros H; now apply H).
  now rewrite Hc.
Qed.

Lemma self_move_assign_witness :
  move_assign 1 1 (mkWorld {[1%nat := live]} [])
  = Some (mkWorld {[1%nat := live]} []).
Proof.
  apply (self_move_assign (mkWorld {[1%nat := live]} []) 1%nat live).
  reflexivity.
Defined.

(** X13. Moving a connection out and back restores it: move-constructing
    a new object [B] from [A] and then move-assigning [B] to [A] leaves [A]
    exactly as it was and [B] without a socket, changes no other object and
    makes no platform call, so the descriptor is never closed on the way. *)
Theorem move_out_and_back (w : world) (A B : nat) (a : TcpClient) :
  heap w !! A = Some a ->
  heap w !! B = None ->
  exists w1,
    move_construct B A w = Some w1 /\
    move_assign A B w1
      = Some (mkWorld (<[B := mkTcpClient invalid_socket false]> (heap w))
                (wtrace w)).
Proof.
  intros HA HB. assert (Hne : A <> B) by congruence.
  rewrite (move_construct_eq w B A a HB HA).
  eexists. split; [reflexivity|].
  rewrite (move_assign_eq _ A B fresh a Hne);
    [|cbn [heap]; apply lookup_insert_eq
     |cbn [heap]; rewrite lookup_insert_ne by congruence;
      apply lookup_insert_eq].
  cbn [heap wtrace]. rewrite close_events_fresh, app_nil_r.
  f_equal. f_equal. apply map_eq. intros i.
  destruct (decide (i = B)) as [->|HiB].
  - now rewrite !lookup_insert_eq.
  - rewrite !(lookup_insert_ne _ B i) by congruence.
    destruct (decide (i = A)) as [->|HiA].
    + now rewrite lookup_insert_eq, HA.
    + now repeat (rewrite lookup_insert_ne by congruence).
Qed.

Lemma move_out_and_back_witness :
  exists w1,
    move_construct 2 1 (mkWorld {[1%nat := live]} []) = Some w1 /\
    move_assign 1 2 w1
      = Some (mkWorld (<[2%nat := mkTcpClient invalid_socket false]>
                         (heap (mkWorld {[1%nat := live]} [])))
                (wtrace (mkWorld {[1%nat := live]} []))).
Proof.
  apply (move_out_and_back (mkWorld {[1%nat := live]} []) 1%nat 2%nat live);
    reflexivity.
Defined.

(** ** Descriptors over whole programs *)

Lemma steps_keep_invariants (os : Platform) (w0 w : world) :
  world_consistent w0 -> accounted w0 -> steps os w0 w ->
  world_consistent w /\ accounted w.
Proof.
  intros H0 A0 Hsteps. induction Hsteps as [w|fuel o w1 w2 w3 H12 IH Hx].
  - now split.
  - destruct (IH H0 A0) as [H2 A2]. split.
    + eapply exec_consistent; [exact H2|exact Hx].
    + eapply exec_accounted; [exact H2|exact A2|exact Hx].
Qed.

Lemma handles_none (h : gmap nat TcpClient) :
  map_Forall (fun _ c => is_connected c = false) h -> handles h = ∅.
Proof.
  induction h as [|a c h Ha IH] using map_ind; intros Hall.
  - reflexivity.
  - rewrite handles_insert_fresh by exact Ha.
    apply map_Forall_insert in Hall; [|exact Ha]. destruct Hall as [Hc Hall].
    rewrite (IH Hall). unfold holds. unfold is_connected in Hc. rewrite Hc.
    multiset_solver.
Qed.

(** X14. No descriptor is leaked.  Starting from a state in which the
    descriptors are accounted for, in particular from the empty heap, after
    any sequence of operations, whether they returned or threw: if no
    object is connected, for instance because all have been destroyed, then
    every descriptor that [socket] returned has been closed. *)
Theorem no_descriptor_leak (os : Platform) (w0 w : world) :
  world_consistent w0 -> accounted w0 -> steps os w0 w ->
  map_Forall (fun _ c => is_connected c = false) (heap w) ->
  open_after ∅ (wtrace w) = ∅.
Proof.
  intros H0 A0 Hsteps Hnone.
  destruct (steps_keep_invariants os w0 w H0 A0 Hsteps) as [_ Ha].
  rewrite <- Ha. now apply handles_none.
Qed.

Lemma no_descriptor_leak_witness :
  open_after ∅
    (wtrace (default (mkWorld ∅ [])
               (run_ops loopback 8 whole_session (mkWorld ∅ [])))) = ∅.
Proof.
  apply (no_descriptor_leak loopback (mkWorld ∅ [])).
  - apply empty_world_consistent.
  - apply empty_world_accounted.
  - apply (run_ops_steps loopback 8 whole_session). vm_compute. reflexivity.
  - apply (bool_decide_unpack
             (map_Forall (fun (_ : nat) c => is_connected c = false) _)).
    vm_compute. exact I.
Defined.

Lemma well_used_app held tr1 tr2 :
  well_used held (tr1 ++ tr2) <->
  well_used held tr1 /\ well_used (open_after held tr1) tr2.
Proof.
  revert held. induction tr1 as [|e tr1 IH]; intros held.
  - cbn. tauto.
  - destruct e; cbn [app well_used open_after]; rewrite ?IH; tauto.
Qed.

Lemma well_used_close (c : TcpClient) held :
  consistent c -> well_used (holds c ⊎ held) (close_events c).
Proof.
  intros [H1 H2]. unfold close_events, holds.
  destruct (socket_ c =? invalid_socket) eqn:E; [exact I|].
  apply Z.eqb_neq in E. destruct (connected_ c).
  - cbn [well_used]. split; [multiset_solver|exact I].
  - now specialize (H2 eq_refl).
Qed.

Lemma attempt_policy_well_used results tr out :
  attempt_policy results tr out -> forall held, well_used held tr.
Proof.
  induction 1 as [|cand rest tr out H IH
                  |cand rest fd rc tr out Hfd Hrc H IH
                  |cand rest fd Hfd]; intros held; cbn [well_used].
  - exact I.
  - rewrite Z.eqb_refl. apply IH.
  - apply Z.eqb_neq in Hfd. rewrite Hfd.
    split; [multiset_solver|]. split; [multiset_solver|]. apply IH.
  - apply Z.eqb_neq in Hfd. rewrite Hfd. split; [multiset_solver|exact I].
Qed.

Lemma sends_well_used (fd : Z) tr held :
  fd ∈ held -> Forall (fun e => is_send_on fd e = true) tr -> well_used held tr.
Proof.
  intros Hfd Hall. induction Hall as [|e tr He Hall IH]; [exact I|].
  destruct e; try discriminate He. cbn in He. apply Z.eqb_eq in He. subst.
  cbn [well_used]. now split.
Qed.

Lemma send_loop_sends (os : Platform) bytes length (fuel : nat) :
  forall total_sent s,
    exists tr,
      snd (send_loop os fuel bytes length total_sent s)
        = mkState (self s) (trace s ++ tr) /\
      Forall (fun e => is_send_on (socket_ (self s)) e = true) tr.
Proof.
  induction fuel as [|fuel IH]; intros total_sent s.
  - exists []. cbn. rewrite app_nil_state. now split.
  - destruct (total_sent <? length) eqn:Hlt.
    + rewrite send_loop_turn by exact Hlt. cbv zeta.
      destruct (to_int _ <=? 0).
      * eexists [_]. split; [reflexivity|].
        constructor; [cbn; apply Z.eqb_refl|constructor].
      * match goal with
        | |- context [send_loop os fuel bytes length ?t ?s1] =>
          destruct (IH t s1) as (tr & Htr & Hall); rewrite Htr
        end.
        cbn [self trace] in *. eexists (_ :: tr). rewrite <- app_assoc.
        split; [reflexivity|].
        constructor; [cbn; apply Z.eqb_refl|exact Hall].
    + rewrite send_loop_done by exact Hlt. exists [].
      cbn [snd]. rewrite app_nil_state. now split.
Qed.

Lemma disciplined_silent {A} (m : M A) :
  (forall s, snd (m s) = s) -> disciplined m.
Proof.
  intros H s _. exists []. rewrite H. split; [now rewrite app_nil_r|].
  intros held. exact I.
Qed.

Lemma disciplined_close : disciplined close.
Proof.
  intros s Hs. exists (close_events (self s)). rewrite close_eq.
  split; [reflexivity|]. intros held. now apply well_used_close.
Qed.

Lemma disciplined_connect (os : Platform) host port :
  disciplined (connect os host port).
Proof.
  intros s Hs. destruct (empty host) eqn:Hh.
  - exists []. unfold connect. rewrite Hh. cbn [snd throw].
    split; [now rewrite app_nil_r|]. intros held. exact I.
  - pose proof (connect_nonempty os host port s Hh) as Hc. cbv zeta in Hc.
    destruct (negb _ || bool_decide _).
    + rewrite Hc. cbn [snd self trace]. eexists. rewrite <- app_assoc.
      split; [reflexivity|]. intros held.
      apply well_used_app. split; [now apply well_used_close|exact I].
    + destruct Hc as (tr & out & Hpol & Hc). rewrite Hc.
      exists (close_events (self s)
                ++ (EvGetaddrinfo host (to_string port) AF_UNSPEC SOCK_STREAM
                      IPPROTO_TCP
                      (fst (sys_getaddrinfo os (trace s ++ close_events (self s))
                              host (to_string port) AF_UNSPEC SOCK_STREAM IPPROTO_TCP))
                      (snd (sys_getaddrinfo os (trace s ++ close_events (self s))
                              host (to_string port) AF_UNSPEC SOCK_STREAM IPPROTO_TCP))
                    :: tr ++ [EvFreeaddrinfo
                      (snd (sys_getaddrinfo os (trace s ++ close_events (self s))
                              host (to_string port) AF_UNSPEC SOCK_STREAM IPPROTO_TCP))])).
      split.
      * destruct out; cbn [snd trace]; now rewrite <- !app_assoc.
      * intros held. apply well_used_app.
        split; [now apply well_used_close|]. cbn [well_used].
        apply well_used_app.
        split; [now apply (attempt_policy_well_used _ _ _ Hpol)|exact I].
Qed.

Lemma disciplined_send (os : Platform) fuel data length :
  disciplined (send os fuel data length).
Proof.
  intros s _. unfold send. unfold bind at 1.
  unfold ensure_connected, bind, get_connected, get_socket.
  destruct (connected_ (self s)) eqn:Hc; cbn [negb orb].
  2:{ exists []. cbn. split; [now rewrite app_nil_r|]. intros; exact I. }
  destruct (socket_ (self s) =? invalid_socket).
  { exists []. cbn. split; [now rewrite app_nil_r|]. intros; exact I. }
  unfold ret. destruct (bool_decide _ && _).
  { exists []. cbn. split; [now rewrite app_nil_r|]. intros; exact I. }
  destruct (send_loop_sends os (default [] data) length fuel 0 s)
    as (tr & Htr & Hall).
  exists tr. rewrite Htr. split; [reflexivity|]. intros held.
  apply (sends_well_used (socket_ (self s))); [|exact Hall].
  unfold holds. rewrite Hc. multiset_solver.
Qed.

Lemma disciplined_send_string (os : Platform) fuel data :
  disciplined (send_string os fuel data).
Proof.
  unfold send_string. destruct (empty data); [|apply disciplined_send].
  apply disciplined_silent. reflexivity.
Qed.

Lemma disciplined_receive (os : Platform) max_bytes :
  disciplined (receive os max_bytes).
Proof.
  intros s Hs. unfold receive. unfold bind at 1.
  unfold ensure_connected, bind, get_connected, get_socket.
  destruct (connected_ (self s)) eqn:Hc; cbn [negb orb].
  2:{ exists []. cbn. split; [now rewrite app_nil_r|]. intros; exact I. }
  destruct (socket_ (self s) =? invalid_socket).
  { exists []. cbn. split; [now rewrite app_nil_r|]. intros; exact I. }
  unfold ret. destruct (max_bytes =? 0).
  { exists []. cbn. split; [now rewrite app_nil_r|]. intros; exact I. }
  unfold syscall. cbn [fst snd self trace].
  assert (Hown : forall held, socket_ (self s) ∈ holds (self s) ⊎ held).
  { intros held. unfold holds. rewrite Hc. multiset_solver. }
  destruct (fst _ >? 0).
  { eexists [_]. split; [reflexivity|]. intros held. cbn [well_used]. now split. }
  destruct (fst _ =? 0).
  - rewrite close_eq. cbn [fst snd self trace close_events socket_].
    eexists (_ :: close_events (self s)). rewrite <- app_assoc.
    split; [reflexivity|]. intros held. cbn [well_used].
    split; [apply Hown|now apply well_used_close].
  - unfold last_socket_error, throw. cbn [snd self trace].
    eexists [_]. split; [reflexivity|]. intros held. cbn [well_used]. now split.
Qed.

Lemma call_well_used {A} (this : nat) (m : M A) (w : world) r w' :
  disciplined m ->
  world_consistent w -> accounted w -> well_used ∅ (wtrace w) ->
  call this m w = Some (r, w') ->
  well_used ∅ (wtrace w').
Proof.
  intros Hm Hw Ha Hu Hcall. apply call_inv in Hcall.
  destruct Hcall as (c & Hc & _ & ->). destruct w as [h tr0].
  unfold accounted in Ha. cbn [heap wtrace] in *.
  destruct (Hm (mkState c tr0) (Hw this c Hc)) as (tr & Htr & Huse).
  cbn [self trace] in Htr, Huse. rewrite Htr.
  apply well_used_app. split; [exact Hu|].
  rewrite <- Ha, (handles_delete h this c Hc). apply Huse.
Qed.

Lemma forget_call_well_used {A} (this : nat) (m : M A) (w w' : world) :
  disciplined m ->
  world_consistent w -> accounted w -> well_used ∅ (wtrace w) ->
  forget (call this m w) = Some w' ->
  well_used ∅ (wtrace w').
Proof.
  intros Hm Hw Ha Hu H.
  destruct (call this m w) as [[r w1]|] eqn:E; [|discriminate].
  inversion H; subst. eapply call_well_used; eauto.
Qed.

Lemma exec_well_used (os : Platform) (fuel : nat) (o : op) (w w' : world) :
  world_consistent w -> accounted w -> well_used ∅ (wtrace w) ->
  exec os fuel o w = Some w' -> well_used ∅ (wtrace w').
Proof.
  intros Hw Ha Hu Hx. destruct o; cbn [exec] in Hx.
  - (* construct *)
    unfold construct in Hx. destruct (heap w !! this) eqn:Ht; [discriminate|].
    erewrite call_lookup in Hx by (cbn [heap]; apply lookup_insert_eq).
    inversion Hx; subst. cbn. exact Hu.
  - (* destruct *)
    unfold destruct_ in Hx.
    destruct (call this close w) as [[r w1]|] eqn:E; [|discriminate].
    inversion Hx; subst. cbn [wtrace].
    eapply call_well_used; [apply disciplined_close|exact Hw|exact Ha|exact Hu|exact E].
  - (* move construction *)
    destruct (heap w !! this) eqn:Ht;
      [unfold move_construct in Hx; now rewrite Ht in Hx|].
    destruct (heap w !! other) as [c|] eqn:Ho;
      [|unfold move_construct in Hx; now rewrite Ht, Ho in Hx].
    rewrite (move_construct_eq w this other c Ht Ho) in Hx.
    inversion Hx; subst. exact Hu.
  - (* move assignment *)
    destruct (decide (this = other)) as [->|Hne].
    + unfold move_assign in Hx.
      rewrite bool_decide_eq_false_2 in Hx by (intros H; now apply H).
      destruct (heap w !! other); [|discriminate]. now inversion Hx; subst.
    + destruct (move_assign_defined w w' this other Hne Hx)
        as (d & c & Hd & Hc).
      rewrite (move_assign_eq w this other d c Hne Hd Hc) in Hx.
      inversion Hx; subst. cbn [wtrace].
      apply well_used_app. split; [exact Hu|].
      unfold accounted in Ha. rewrite <- Ha, (handles_delete (heap w) this d Hd).
      apply well_used_close. exact (Hw this d Hd).
  - eapply forget_call_well_used; [apply disciplined_connect| | | |exact Hx]; assumption.
  - eapply forget_call_well_used; [apply disciplined_send| | | |exact Hx]; assumption.
  - eapply forget_call_well_used; [apply disciplined_send_string| | | |exact Hx]; assumption.
  - eapply forget_call_well_used; [apply disciplined_receive| | | |exact Hx]; assumption.
  - eapply forget_call_well_used; [apply disciplined_close| | | |exact Hx]; assumption.
  - eapply forget_call_well_used; [apply disciplined_silent| | | |exact Hx];
      [reflexivity|assumption..].
Qed.

(** X15. Descriptors are used properly over whole programs.  Starting
    from a state in which the descriptors are accounted for, in particular
    from the empty heap, after any sequence of operations, whether they
    returned or threw: every [connect], [send], [recv] and [close] in the
    log is on a descriptor that [socket] had returned and that had not been
    closed at that moment.  So no descriptor is closed twice and none is
    used after its close. *)
Theorem descriptors_used_properly (os : Platform) (w0 w : world) :
  world_consistent w0 -> accounted w0 -> well_used ∅ (wtrace w0) ->
  steps os w0 w ->
  well_used ∅ (wtrace w).
Proof.
  intros H0 A0 U0 Hsteps.
  assert (H : world_consistent w /\ accounted w /\ well_used ∅ (wtrace w)).
  { induction Hsteps as [w|fuel o w1 w2 w3 H12 IH Hx].
    - split; [exact H0|split; [exact A0|exact U0]].
    - destruct (IH H0 A0 U0) as (H2 & A2 & U2). split; [|split].
      + eapply exec_consistent; [exact H2|exact Hx].
      + eapply exec_accounted; [exact H2|exact A2|exact Hx].
      + eapply exec_well_used; [exact H2|exact A2|exact U2|exact Hx]. }
  apply H.
Qed.

Lemma descriptors_used_properly_witness :
  well_used ∅
    (wtrace (default (mkWorld ∅ [])
               (run_ops loopback 8 whole_session (mkWorld ∅ [])))).
Proof.
  apply (descriptors_used_properly loopback (mkWorld ∅ [])).
  - apply empty_world_consistent.
  - apply empty_world_accounted.
  - exact I.
  - apply (run_ops_steps loopback 8 whole_session). vm_compute. reflexivity.
Defined.

(** ** receive: bounds, and the calls after a shutdown *)

Lemma length_resize (n : nat) (buf : list Byte.byte) :
  List.length (resize n buf) = n.
Proof.
  unfold resize. rewrite length_app, length_take, length_replicate. lia.
Qed.

(** X16. With a platform whose [recv] never reports more bytes than were
    asked for, whatever [receive(max_bytes)] returns is at most [max_bytes]
    long, on any object; and a returned string is empty only when nothing
    was asked for or the peer had shut down. *)
Theorem receive_length_bound (os : Platform) (max_bytes : Z) (s : state)
    (str : string) :
  0 <= max_bytes ->
  fst (sys_recv os (trace s) (socket_ (self s)) max_bytes) <= max_bytes ->
  fst (receive os max_bytes s) = Ok str ->
  Z.of_nat (String.length str) <= max_bytes /\
  (str = "" ->
   max_bytes = 0 \/
   fst (sys_recv os (trace s) (socket_ (self s)) max_bytes) = 0).
Proof.
  intros Hmax Hret. unfold receive. unfold bind at 1.
  unfold ensure_connected, bind, get_connected, get_socket.
  destruct (negb _ || _); [discriminate|]. unfold ret.
  destruct (max_bytes =? 0) eqn:Hm.
  { apply Z.eqb_eq in Hm. cbn. intros H; inversion H; subst.
    split; [cbn; lia|]. now left. }
  unfold syscall. cbn [fst snd self trace].
  set (r := sys_recv os (trace s) (socket_ (self s)) max_bytes) in *.
  destruct (fst r >? 0) eqn:Hg.
  - apply Z.gtb_lt in Hg. cbn [fst]. intros H; inversion H; subst. split.
    + rewrite length_string_of_list_byte, length_resize. lia.
    + intros Hempty. apply (f_equal String.length) in Hempty.
      rewrite length_string_of_list_byte, length_resize in Hempty.
      cbn in Hempty. lia.
  - destruct (fst r =? 0) eqn:H0.
    + apply Z.eqb_eq in H0. rewrite close_eq. cbn [fst].
      intros H; inversion H; subst. split; [cbn; lia|]. now right.
    + discriminate.
Qed.

Lemma receive_length_bound_witness :
  Z.of_nat (String.length "PONG") <= 4096.
Proof.
  apply (receive_length_bound chatty 4096 (mkState live []) "PONG").
  - lia.
  - simpl. lia.
  - reflexivity.
Defined.

(** X17. Once [receive] has seen the peer shut down, the object refuses
    further traffic by itself: the next [receive], and the next [send] of
    any buffer, throw [std::logic_error] without a platform call, rather
    than return another empty result or report a platform error. *)
Theorem calls_after_peer_shutdown (os : Platform) (fuel : nat) (max_bytes : Z)
    (s : state) :
  consistent (self s) ->
  is_connected (self s) = true ->
  max_bytes <> 0 ->
  fst (sys_recv os (trace s) (socket_ (self s)) max_bytes) = 0 ->
  let s1 := snd (receive os max_bytes s) in
  (forall again, receive os again s1 = (Throw not_connected, s1)) /\
  (forall data length, send os fuel data length s1 = (Throw not_connected, s1)) /\
  (forall data, empty data = false ->
     send_string os fuel data s1 = (Throw not_connected, s1)).
Proof.
  intros [Hinv _] Hc Hm H0 s1. unfold is_connected in Hc.
  assert (Hs1 : connected_ (self s1) = false).
  { unfold s1. rewrite receive_connected by auto. cbv zeta.
    rewrite H0. reflexivity. }
  split; [|split].
  - intros again. now apply receive_not_connected.
  - intros data length. now apply send_not_connected.
  - intros data Hd. unfold send_string. rewrite Hd.
    now apply send_not_connected.
Qed.

Lemma calls_after_peer_shutdown_witness :
  receive loopback 4096 (snd (receive loopback 4096 (mkState live [])))
  = (Throw not_connected, snd (receive loopback 4096 (mkState live []))).
Proof.
  apply (calls_after_peer_shutdown loopback 8 4096 (mkState live []));
    [exact live_consistent | reflexivity | discriminate | reflexivity].
Defined.
